(** * Softmax regression and linear regression from scratch

    A shallow embedding of the two "from scratch" notebooks
    (P02-C03-softmax-regression-scratch and the linear-regression notebook):
    the softmax normalisation, the cross-entropy loss, the SGD update, the
    accuracy evaluation loop and the training loops with their moving average
    of the loss.

    Arrays hold real numbers: the statements below are about exact
    arithmetic, and rounding and overflow of 32-bit floats are not part of the
    model.  The one exception is the module [Float32], which follows
    [softmax] through the underflow of [nd.exp] to 0 and the NaN of 0/0. *)

From Stdlib Require Import Reals Lra Lia.
From stdpp Require Import base list gmap.

Local Open Scope R_scope.

(** ** Arrays and the [mxnet.nd] operations the notebooks call *)

Module ND.

(** A 1-D array is a list of reals, a 2-D array the list of its rows. *)
Abbreviation vector := (list R).
Abbreviation matrix := (list (list R)).

(** Entry [(i, j)] of a 2-D array. *)
Definition entry (m : matrix) (i j : nat) : option R :=
  m !! i ≫= (λ row, row !! j).

(** [nd.sum] of a 1-D array. *)
Definition sum (v : vector) : R := foldr Rplus 0 v.

(** Largest element of a non-empty list whose head is [x]. *)
Definition max_from (x : R) (xs : vector) : R := foldr Rmax x xs.

(** [nd.max(a)] with no [axis]: the reduction runs over every axis, so the
    result is the single largest entry of the whole array.  An NDArray has no
    zero-sized dimension, so the array always has an entry; the value 0 chosen
    for an array without entries is never reached by the notebooks. *)
Definition max (a : matrix) : R :=
  match concat a with
  | [] => 0
  | x :: xs => max_from x xs
  end.

(** [a - s] for a one-element array [s], broadcast over all of [a]. *)
Definition sub_scalar (a : matrix) (s : R) : matrix :=
  (λ row : vector, (λ x, x - s) <$> row) <$> a.

(** [nd.exp] and [nd.log], elementwise.  [ln] is the logarithm on positive
    numbers only: at 0 and below, where [nd.log] returns [-inf] or NaN, it is
    0 by convention, so a statement about the value of a logarithm carries
    the positivity of its argument. *)
Definition exp (a : matrix) : matrix := (λ row : vector, Rtrigo_def.exp <$> row) <$> a.
Definition log (a : matrix) : matrix := (λ row : vector, ln <$> row) <$> a.

(** [nd.sum(a, axis=0, exclude=True)]: reduce over every axis but the first,
    one sum per row. *)
Definition sum_rows (a : matrix) : vector := sum <$> a.

(** [a / p.reshape((-1,1))]: row [i] of [a] divided by [p[i]]. *)
Definition div_col (a : matrix) (p : vector) : matrix :=
  zip_with (λ (row : vector) s, (λ x, x / s) <$> row) a p.

(** [a * b], elementwise on arrays of one shape. *)
Definition mul (a b : matrix) : matrix := zip_with (zip_with Rmult) a b.

(** [a - b], elementwise on arrays of one shape, and [c * a] for a number
    [c]. *)
Definition sub (a b : matrix) : matrix := zip_with (zip_with Rminus) a b.
Definition scale (c : R) (a : matrix) : matrix :=
  (λ row : vector, Rmult c <$> row) <$> a.

(** Unary minus on a 1-D array. *)
Definition neg (v : vector) : vector := Ropp <$> v.

(** [nd.mean] of a 1-D array. *)
Definition mean (v : vector) : R := sum v / INR (length v).

(** [nd.mean] of a 2-D array: the mean of all entries, a one-element array. *)
Definition mean_all (a : matrix) : vector := [mean (concat a)].

(** Number of columns, and column [j], of an array kept by rows. *)
Definition width (a : matrix) : nat := length (default [] (head a)).
Definition column (j : nat) (a : matrix) : vector :=
  (λ row : vector, default 0 (row !! j)) <$> a.

(** [nd.dot(X, W)]: entry [(i, j)] is the inner product of row [i] of [X]
    with column [j] of [W].  The rows of [X] are as long as [W] has rows, as
    [nd.dot] demands; on other arguments, where [nd.dot] raises, [zip_with]
    cuts to the shorter length. *)
Definition inner (x c : vector) : R := sum (zip_with Rmult x c).
Definition dot (X W : matrix) : matrix :=
  (λ x : vector, (λ j, inner x (column j W)) <$> seq 0 (width W)) <$> X.

(** [Y + b] for a 1-D array [b], broadcast over the rows of [Y].  [b] has one
    entry per column of [Y], as in the notebooks; on other arguments, where
    [+] repeats a one-entry [b] or raises, [zip_with] cuts to the shorter
    length, so a statement about the length of a row carries the shapes. *)
Definition add_row (Y : matrix) (b : vector) : matrix :=
  (λ row : vector, zip_with Rplus row b) <$> Y.

(** [a ** 2], elementwise. *)
Definition square (a : matrix) : matrix :=
  (λ row : vector, (λ x, x * x) <$> row) <$> a.

(** Class indices.  The notebooks keep labels and [nd.argmax] results as
    floats holding whole numbers; they are natural numbers here.

    [nd.one_hot(label, depth)]: one row per label, 1 at the label's index. *)
Definition one_hot_row (depth label : nat) : vector :=
  (λ j, if (j =? label)%nat then 1 else 0) <$> seq 0 depth.
Definition one_hot (labels : list nat) (depth : nat) : matrix :=
  one_hot_row depth <$> labels.

(** Index of the first largest element from position [i] on, given the best
    element [best] seen so far, found at [besti]. *)
Fixpoint argmax_from (best : R) (besti i : nat) (row : vector) : nat :=
  match row with
  | [] => besti
  | x :: xs =>
      if Rlt_dec best x then argmax_from x i (S i) xs
      else argmax_from best besti (S i) xs
  end.

(** [nd.argmax(a, axis=1)]: per row, the index of the largest entry, the
    first one on ties. *)
Definition argmax_row (row : vector) : nat :=
  match row with
  | [] => 0%nat
  | x :: xs => argmax_from x 0 1 xs
  end.
Definition argmax (a : matrix) : list nat := argmax_row <$> a.

(** [predictions == label], elementwise: 1 where equal, 0 elsewhere. *)
Definition eq_elemwise (u v : list nat) : vector :=
  zip_with (λ p l, if (p =? l)%nat then 1 else 0) u v.

End ND.

(** ** The softmax notebook's [softmax] *)

Module Softmax.
Import ND.

(** The argument of [nd.exp] in [softmax]: [y_linear - nd.max(y_linear)]. *)
Definition exponent_args (y_linear : matrix) : matrix :=
  sub_scalar y_linear (ND.max y_linear).

(** [[
def softmax(y_linear):
    exp = nd.exp(y_linear-nd.max(y_linear))
    partition =nd.sum(exp, axis=0, exclude=True).reshape((-1,1))
    return exp / partition
]]
    in exact arithmetic: over the reals no exponential is rounded to 0, so no
    [partition] is 0.  What the same three lines return on float32 arrays,
    where [nd.exp] underflows, is [Float32.softmax32] below. *)
Definition softmax (y_linear : matrix) : matrix :=
  let exp := ND.exp (exponent_args y_linear) in
  let partition := sum_rows exp in
  div_col exp partition.

(** The largest element of one row, as the row-wise reading of the
    normalisation would use it (comparison only; [softmax] does not call it). *)
Definition row_max (row : vector) : R :=
  match row with
  | [] => 0
  | x :: xs => max_from x xs
  end.

(** The textbook softmax of one score vector, without any shift. *)
Definition softmax_row (row : vector) : vector :=
  (λ x, Rtrigo_def.exp x / sum (Rtrigo_def.exp <$> row)) <$> row.

(** Scores with the constant [c i] added to every entry of row [i]. *)
Definition shift_rows (c : nat → R) (scores : matrix) : matrix :=
  imap (λ i (row : vector), (λ x, x + c i) <$> row) scores.

End Softmax.

(** ** Facts about sums and maxima of arrays *)

Module NDFacts.
Import ND.

Lemma sum_cons (x : R) (v : vector) : sum (x :: v) = x + sum v.
Proof. reflexivity. Qed.

Lemma sum_app (u v : vector) : sum (u ++ v) = sum u + sum v.
Proof. induction u as [|x u IH]; simpl; [|rewrite IH]; lra. Qed.

Lemma sum_nonneg (v : vector) : Forall (λ x, 0 <= x) v → 0 <= sum v.
Proof. induction 1; simpl; lra. Qed.

Lemma sum_pos (v : vector) : v ≠ [] → Forall (λ x, 0 < x) v → 0 < sum v.
Proof.
  intros Hne Hv. destruct Hv as [|x v Hx Hv]; [done|].
  assert (0 <= sum v) by (apply sum_nonneg; eapply Forall_impl; [exact Hv|]; simpl; intros; lra).
  simpl; lra.
Qed.

Lemma sum_fmap_div {A} (f : A → R) (c : R) (l : list A) :
  sum ((λ x, f x / c) <$> l) = sum (f <$> l) / c.
Proof.
  induction l as [|a l IH]; csimpl.
  - unfold Rdiv; lra.
  - rewrite IH. unfold Rdiv; lra.
Qed.

Lemma sum_fmap_mul_r {A} (f : A → R) (c : R) (l : list A) :
  sum ((λ x, f x * c) <$> l) = sum (f <$> l) * c.
Proof. induction l as [|a l IH]; csimpl; [|rewrite IH]; lra. Qed.

Lemma sum_exp_pos (row : vector) : row ≠ [] → 0 < sum (Rtrigo_def.exp <$> row).
Proof.
  intros Hne. apply sum_pos.
  - by destruct row.
  - apply Forall_fmap, Forall_forall. intros x _. apply exp_pos.
Qed.

Lemma max_from_head (x : R) (xs : vector) : x <= max_from x xs.
Proof.
  induction xs as [|y xs IH]; simpl; [lra|].
  etrans; [exact IH|apply Rmax_r].
Qed.

Lemma max_from_upper (x : R) (xs : vector) (y : R) : y ∈ x :: xs → y <= max_from x xs.
Proof.
  intros [->|Hin]%elem_of_cons; [apply max_from_head|].
  induction xs as [|z xs IH]; [by apply elem_of_nil in Hin|].
  simpl. apply elem_of_cons in Hin as [->|Hin].
  - apply Rmax_l.
  - etrans; [by apply IH|apply Rmax_r].
Qed.

Lemma max_from_attained (x : R) (xs : vector) : max_from x xs ∈ x :: xs.
Proof.
  unfold max_from. induction xs as [|z xs IH]; simpl; [apply list_elem_of_here|].
  apply Rmax_case.
  - apply list_elem_of_further, list_elem_of_here.
  - apply elem_of_cons in IH as [IH|IH].
    + rewrite IH. apply list_elem_of_here.
    + do 2 apply list_elem_of_further. exact IH.
Qed.

Lemma entry_elem_of_concat (a : matrix) (y : R) :
  y ∈ concat a ↔ ∃ i j, entry a i j = Some y.
Proof.
  unfold entry. rewrite list_elem_of_In, in_concat. split.
  - intros (row & Hrow & Hy).
    apply list_elem_of_In, list_elem_of_lookup in Hrow as [i Hi].
    apply list_elem_of_In, list_elem_of_lookup in Hy as [j Hj].
    exists i, j. by rewrite Hi.
  - intros (i & j & Hij). destruct (a !! i) as [row|] eqn:Hi; [|done].
    exists row. split; apply list_elem_of_In; eapply list_elem_of_lookup_2; eauto.
Qed.

Lemma max_upper (a : matrix) (i j : nat) (y : R) :
  entry a i j = Some y → y <= ND.max a.
Proof.
  intros Hy. assert (Hin : y ∈ concat a) by (apply entry_elem_of_concat; eauto).
  unfold ND.max. destruct (concat a) as [|x xs]; [by apply elem_of_nil in Hin|].
  by apply max_from_upper.
Qed.

Lemma max_attained (a : matrix) (i j : nat) (y : R) :
  entry a i j = Some y → ∃ i' j', entry a i' j' = Some (ND.max a).
Proof.
  intros Hy. assert (Hin : y ∈ concat a) by (apply entry_elem_of_concat; eauto).
  apply entry_elem_of_concat. unfold ND.max.
  destruct (concat a) as [|x xs]; [by apply elem_of_nil in Hin|].
  apply max_from_attained.
Qed.

End NDFacts.

(** ** Softmax: what is subtracted, what comes out *)

Module SoftmaxFacts.
Import ND NDFacts Softmax.

(** Subtracting any one number [t] from a score vector leaves its textbook
    softmax unchanged. *)
Lemma softmax_row_shift (t : R) (row : vector) :
  softmax_row ((λ x, x - t) <$> row) = softmax_row row.
Proof.
  unfold softmax_row. rewrite <- !list_fmap_compose.
  assert (Hsum : sum (Rtrigo_def.exp ∘ (λ x, x - t) <$> row)
                 = sum (Rtrigo_def.exp <$> row) * Rtrigo_def.exp (- t)).
  { rewrite <- sum_fmap_mul_r. f_equal. apply list_fmap_ext. intros _ x _. simpl.
    rewrite <- exp_plus. f_equal; lra. }
  rewrite Hsum. apply list_fmap_ext. intros j x Hx. simpl.
  assert (0 < sum (Rtrigo_def.exp <$> row)).
  { apply sum_exp_pos. by intros ->. }
  pose proof (exp_pos (- t)).
  replace (x - t) with (x + - t) by lra. rewrite exp_plus. field. lra.
Qed.

(** With one and the same number [t] subtracted from every entry, the three
    steps of [softmax] produce the textbook softmax of each row. *)
Lemma softmax_steps_any_shift (t : R) (a : matrix) :
  div_col (ND.exp (sub_scalar a t)) (sum_rows (ND.exp (sub_scalar a t)))
  = softmax_row <$> a.
Proof.
  unfold div_col, sum_rows, ND.exp, sub_scalar.
  induction a as [|row a IH]; [done|]. csimpl. f_equal; [|exact IH].
  rewrite <- (softmax_row_shift t row). unfold softmax_row.
  by rewrite <- !list_fmap_compose.
Qed.

Lemma softmax_by_rows (a : matrix) : softmax a = softmax_row <$> a.
Proof. apply softmax_steps_any_shift. Qed.

Lemma softmax_row_sum (row : vector) : row ≠ [] → sum (softmax_row row) = 1.
Proof.
  intros Hne. unfold softmax_row. rewrite sum_fmap_div.
  pose proof (sum_exp_pos row Hne). field. lra.
Qed.

Lemma softmax_row_pos (row : vector) : Forall (λ p, 0 < p) (softmax_row row).
Proof.
  unfold softmax_row. apply Forall_fmap, Forall_lookup. intros j x Hx. simpl.
  assert (0 < sum (Rtrigo_def.exp <$> row)).
  { apply sum_exp_pos. by intros ->. }
  apply Rdiv_lt_0_compat; [apply exp_pos|done].
Qed.

Lemma entry_fmap (f : R → R) (a : matrix) (i j : nat) :
  entry ((λ row : vector, f <$> row) <$> a) i j = f <$> entry a i j.
Proof.
  unfold entry. rewrite list_lookup_fmap.
  destruct (a !! i) as [row|]; [|done]. simpl. by rewrite list_lookup_fmap.
Qed.

(** The number subtracted before exponentiating is the maximum over the
    whole score matrix, the same for every row.  For an entry [x] at [(i, j)]
    the exponent argument is [x - ND.max scores], the output entry is
    [exp (x - ND.max scores)] over the sum of the exponentials of row [i], and
    [ND.max scores] is an upper bound of all entries that one entry attains. *)
Lemma softmax_subtracts_global_max (scores : matrix) (i j : nat) (row : vector) (x : R) :
  scores !! i = Some row →
  row !! j = Some x →
  entry (exponent_args scores) i j = Some (x - ND.max scores)
  ∧ entry (softmax scores) i j
    = Some (Rtrigo_def.exp (x - ND.max scores)
            / sum ((λ y, Rtrigo_def.exp (y - ND.max scores)) <$> row))
  ∧ (∀ i' j' y, entry scores i' j' = Some y → y <= ND.max scores)
  ∧ (∃ i' j', entry scores i' j' = Some (ND.max scores)).
Proof.
  intros Hi Hj.
  assert (Hx : entry scores i j = Some x) by (unfold entry; by rewrite Hi).
  split_and!.
  - unfold exponent_args, sub_scalar. by rewrite entry_fmap, Hx.
  - unfold softmax, div_col, sum_rows, ND.exp, exponent_args, sub_scalar, entry.
    rewrite lookup_zip_with, !list_lookup_fmap, Hi. simpl.
    rewrite !list_lookup_fmap, Hj. simpl.
    by rewrite <- list_fmap_compose.
  - intros i' j' y. apply max_upper.
  - by eapply max_attained.
Qed.

(** Over the reals, where no exponential is rounded to 0: when every row
    has at least one class, each row of the softmax output sums to 1 and holds
    no negative entry; the output has one row per input row. *)
Lemma softmax_rows_sum_to_one (scores : matrix) :
  Forall (λ row : vector, row ≠ []) scores →
  length (softmax scores) = length scores
  ∧ Forall (λ out : vector, sum out = 1 ∧ Forall (λ p, 0 <= p) out) (softmax scores).
Proof.
  intros Hrows. rewrite softmax_by_rows. split; [by rewrite length_fmap|].
  apply Forall_fmap. eapply Forall_impl; [exact Hrows|]. simpl.
  intros row Hne. split; [by apply softmax_row_sum|].
  eapply Forall_impl; [apply softmax_row_pos|]. simpl. intros; lra.
Qed.

Lemma softmax_row_add (c : R) (row : vector) :
  softmax_row ((λ x, x + c) <$> row) = softmax_row row.
Proof.
  rewrite <- (softmax_row_shift (- c) row). f_equal.
  apply list_fmap_ext. intros _ x _. lra.
Qed.

Lemma softmax_rows_shift (c : nat → R) (scores : matrix) :
  softmax_row <$> shift_rows c scores = softmax_row <$> scores.
Proof.
  unfold shift_rows. revert c.
  induction scores as [|row scores IH]; intros c; [done|]. csimpl. f_equal.
  - apply softmax_row_add.
  - apply (IH (c ∘ Datatypes.S)).
Qed.

(** C8: adding to each row a constant of its own does not change the
    output of [softmax]. *)
Theorem softmax_shift_invariant (c : nat → R) (scores : matrix) :
  softmax (shift_rows c scores) = softmax scores.
Proof. rewrite !softmax_by_rows. apply softmax_rows_shift. Qed.

End SoftmaxFacts.

(** ** [softmax] on float32 arrays: underflow of the exponential *)

Module Float32.
Import ND NDFacts Softmax SoftmaxFacts.

(** The value of a float32 division, as far as the notebook's [softmax]
    needs it: a number, an infinity, or NaN. *)
Inductive fval := Num (x : R) | Inf | NaN.

(** [x / p] on floats: 0/0 is NaN and a non-zero number over 0 is an
    infinity. *)
Definition div32 (x p : R) : fval :=
  if Req_dec_T p 0 then (if Req_dec_T x 0 then NaN else Inf) else Num (x / p).

(** Two scores 200 apart in different rows. *)
Definition far_apart : matrix := [[0; 0]; [200; 200]].

(** A float32 row that passes for a probability distribution: every entry is
    a number, none is negative, and the entries sum to 1 within [tol]. *)
Definition distribution32 (tol : R) (row : list fval) : Prop :=
  ∃ ps : vector,
    row = Num <$> ps ∧ Forall (λ p, 0 <= p) ps ∧ Rabs (sum ps - 1) <= tol.

Section Exp32.

(** [nd.exp] on float32 arrays.  Only two facts of it are used: it returns
    0 at and below -104, where the exact exponential lies under [2 ^ -150],
    half the smallest positive float32; and it returns 1 at 0. *)
Variable exp32 : R → R.
Hypothesis exp32_underflow : ∀ x, x <= -104 → exp32 x = 0.
Hypothesis exp32_0 : exp32 0 = 1.

(** [softmax] as the notebook has it, with the float32 [nd.exp] and the
    float division in place of the exact ones:
[[
    exp = nd.exp(y_linear-nd.max(y_linear))
    partition =nd.sum(exp, axis=0, exclude=True).reshape((-1,1))
    return exp / partition
]]
    The subtraction, the sum and the quotient are kept exact, so this is the
    float32 result only where they are exact on floats too, as they are on
    [far_apart]: [0 - 200], [200 - 200], [0 + 0], [1 + 1] and [1 / 2]. *)
Definition softmax32 (y_linear : matrix) : list (list fval) :=
  let exp := (λ row : vector, exp32 <$> row) <$> exponent_args y_linear in
  let partition := sum_rows exp in
  zip_with (λ (row : vector) s, (λ x, div32 x s) <$> row) exp partition.

(** The same with each row's own maximum subtracted, the row-wise reading
    of the normalisation (comparison only; the notebook has no such
    function). *)
Definition softmax32_row_wise (y_linear : matrix) : list (list fval) :=
  let exp := (λ row : vector, (λ x, exp32 (x - row_max row)) <$> row) <$> y_linear in
  let partition := sum_rows exp in
  zip_with (λ (row : vector) s, (λ x, div32 x s) <$> row) exp partition.

Lemma max_far_apart : ND.max far_apart = 200.
Proof.
  unfold ND.max, max_from. simpl.
  rewrite (Rmax_left 200 0) by lra. rewrite (Rmax_left 200 200) by lra.
  rewrite (Rmax_right 0 200) by lra. reflexivity.
Qed.

Lemma row_max_0_0 : row_max [0; 0] = 0.
Proof. unfold row_max, max_from. simpl. apply Rmax_left. lra. Qed.

Lemma div32_0_0 : div32 0 0 = NaN.
Proof. unfold div32. destruct (Req_dec_T 0 0); [|lra]. by destruct (Req_dec_T 0 0). Qed.

Lemma div32_1_2 : div32 1 (1 + (1 + 0)) = Num (1 / 2).
Proof. unfold div32. destruct (Req_dec_T _ 0); [lra|]. f_equal. lra. Qed.

Lemma softmax32_far_apart :
  softmax32 far_apart = [[NaN; NaN]; [Num (1 / 2); Num (1 / 2)]].
Proof.
  unfold softmax32, exponent_args, sub_scalar, sum_rows. rewrite max_far_apart.
  simpl. rewrite !(exp32_underflow (0 - 200)) by lra.
  replace (200 - 200) with 0 by lra. rewrite !exp32_0.
  simpl. replace (0 + (0 + 0)) with 0 by lra.
  by rewrite div32_0_0, div32_1_2.
Qed.

Lemma softmax32_row_wise_far_apart :
  softmax32_row_wise far_apart
  = [[Num (1 / 2); Num (1 / 2)]; [Num (1 / 2); Num (1 / 2)]].
Proof.
  unfold softmax32_row_wise, sum_rows, far_apart, row_max, max_from. simpl.
  rewrite !(Rmax_left 0 0), !(Rmax_left 200 200) by lra.
  replace (200 - 200) with 0 by lra. replace (0 - 0) with 0 by lra.
  rewrite !exp32_0. simpl. by rewrite div32_1_2.
Qed.

End Exp32.

Lemma nan_row_no_distribution (tol : R) : ¬ distribution32 tol [NaN; NaN].
Proof. intros ([|p ps] & Hrow & _); discriminate Hrow. Qed.

Lemma halves_distribution : distribution32 0 [Num (1 / 2); Num (1 / 2)].
Proof.
  exists [1 / 2; 1 / 2]. split_and!; [done| |].
  - repeat (apply Forall_cons; split; [lra|]). apply Forall_nil_2.
  - simpl. replace (1 / 2 + (1 / 2 + 0) - 1) with 0 by lra. rewrite Rabs_R0. lra.
Qed.

(** An exponential that underflows: 0 at and below -104, exact above. *)
Definition exp_flushed (x : R) : R :=
  if Rle_dec x (-104) then 0 else Rtrigo_def.exp x.

Lemma exp_flushed_underflow (x : R) : x <= -104 → exp_flushed x = 0.
Proof. intros Hx. unfold exp_flushed. by destruct (Rle_dec x (-104)). Qed.

Lemma exp_flushed_0 : exp_flushed 0 = 1.
Proof. unfold exp_flushed. destruct (Rle_dec 0 (-104)); [lra|apply exp_0]. Qed.

(** C1: the number [softmax] subtracts before exponentiating is the largest
    entry of the whole score matrix, not of the row: the exponent argument of
    an entry [x] is [x - ND.max scores] in every row.  On scores 200 apart in
    two rows the first row [0, 0] gets [0 - 200], where its own maximum 0
    would leave [0 - 0]; with an [nd.exp] that underflows as the float32 one
    does, the first output row is then NaN, where subtracting the row's own
    maximum gives one half twice. *)
Theorem softmax_subtracts_whole_matrix_max (exp32 : R → R) :
  (∀ x, x <= -104 → exp32 x = 0) →
  exp32 0 = 1 →
  (∀ (scores : matrix) (i j : nat) (row : vector) (x : R),
     scores !! i = Some row → row !! j = Some x →
     entry (exponent_args scores) i j = Some (x - ND.max scores))
  ∧ ND.max far_apart = 200
  ∧ row_max [0; 0] = 0
  ∧ entry (exponent_args far_apart) 0 0 = Some (0 - 200)
  ∧ entry (exponent_args far_apart) 0 0 ≠ Some (0 - row_max [0; 0])
  ∧ softmax32 exp32 far_apart !! 0%nat = Some [NaN; NaN]
  ∧ softmax32_row_wise exp32 far_apart !! 0%nat = Some [Num (1 / 2); Num (1 / 2)].
Proof.
  intros Hunder H0.
  assert (Hentry : entry (exponent_args far_apart) 0 0 = Some (0 - 200)).
  { unfold exponent_args. by rewrite max_far_apart. }
  split_and!.
  - intros scores i j row x Hi Hj.
    by destruct (softmax_subtracts_global_max scores i j row x Hi Hj) as [H _].
  - apply max_far_apart.
  - apply row_max_0_0.
  - exact Hentry.
  - rewrite Hentry, row_max_0_0. intros [= H]. lra.
  - by rewrite softmax32_far_apart.
  - by rewrite softmax32_row_wise_far_apart.
Qed.

Lemma softmax_subtracts_whole_matrix_max_witness :
  (∀ x, x <= -104 → exp_flushed x = 0)
  ∧ exp_flushed 0 = 1
  ∧ entry (exponent_args far_apart) 0 0 = Some (0 - 200)
  ∧ softmax32 exp_flushed far_apart !! 0%nat = Some [NaN; NaN]
  ∧ softmax32_row_wise exp_flushed far_apart !! 0%nat
    = Some [Num (1 / 2); Num (1 / 2)].
Proof.
  split_and!; [exact exp_flushed_underflow|exact exp_flushed_0|..];
    apply (softmax_subtracts_whole_matrix_max exp_flushed exp_flushed_underflow
             exp_flushed_0).
Defined.

(** C2: over the reals every row of the output of [softmax] sums to 1 and
    holds no negative entry.  With an [nd.exp] that underflows as the float32
    one does, this fails whatever the tolerance: on the finite scores
    [[0, 0], [200, 200]] the first output row is NaN twice, so the output is
    not made of rows that are distributions; subtracting each row's own
    maximum gives one half everywhere. *)
Theorem softmax32_returns_nan_row (exp32 : R → R) :
  (∀ x, x <= -104 → exp32 x = 0) →
  exp32 0 = 1 →
  softmax32 exp32 far_apart = [[NaN; NaN]; [Num (1 / 2); Num (1 / 2)]]
  ∧ (∀ tol, ¬ Forall (distribution32 tol) (softmax32 exp32 far_apart))
  ∧ Forall (distribution32 0) (softmax32_row_wise exp32 far_apart)
  ∧ (∀ scores : matrix,
       Forall (λ row : vector, row ≠ []) scores →
       Forall (λ out : vector, sum out = 1 ∧ Forall (λ p, 0 <= p) out)
         (softmax scores)).
Proof.
  intros Hunder H0. split_and!.
  - by apply softmax32_far_apart.
  - intros tol Hall. rewrite softmax32_far_apart in Hall by done.
    apply Forall_cons in Hall as [Hnan _]. by apply nan_row_no_distribution in Hnan.
  - rewrite softmax32_row_wise_far_apart by done.
    repeat (apply Forall_cons; split; [apply halves_distribution|]).
    apply Forall_nil_2.
  - intros scores Hrows. by apply softmax_rows_sum_to_one.
Qed.

Lemma softmax32_returns_nan_row_witness :
  (∀ x, x <= -104 → exp_flushed x = 0)
  ∧ exp_flushed 0 = 1
  ∧ softmax32 exp_flushed far_apart = [[NaN; NaN]; [Num (1 / 2); Num (1 / 2)]]
  ∧ ∀ tol, ¬ Forall (distribution32 tol) (softmax32 exp_flushed far_apart).
Proof.
  split_and!; [exact exp_flushed_underflow|exact exp_flushed_0|..];
    apply (softmax32_returns_nan_row exp_flushed exp_flushed_underflow
             exp_flushed_0).
Defined.

End Float32.

(** ** The batch iterator *)

Module DataIter.

(** What becomes of the examples that do not fill a last batch. *)
Inductive LastBatch := DropRemainder | YieldSmaller.

Section Iterator.
Context {A : Type}.

(** The reordering applied on [reset], and the policy for a last partial
    batch; the results below hold for every choice of both. *)
Variable shuffle : list A → list A.
Variable policy : LastBatch.

(** Modelled from the spec: the batch iterator [mx.io.NDArrayIter], which
    belongs to the MXNet library and whose code the notebooks do not contain.
    Section 4.1: a lazy, finite, restartable sequence of fixed-size batches
    over a dataset, with a current position. *)
Record NDArrayIter := {
  data : list A;
  batch_size : nat;
  position : nat
}.

(** Modelled from the spec: "On explicit reset, reshuffles the dataset order
    and resets position to zero." *)
Definition reset (it : NDArrayIter) : NDArrayIter :=
  {| data := shuffle (data it); batch_size := batch_size it; position := 0 |}.

(** Modelled from the spec: "next() returns the next batch of the configured
    batch size"; when fewer examples than a batch remain, the policy decides
    between dropping them and yielding a smaller batch.  [None] is the end of
    the sequence. *)
Definition next (it : NDArrayIter) : option (list A * NDArrayIter) :=
  let remaining := (length (data it) - position it)%nat in
  if decide (batch_size it ≤ remaining)%nat then
    Some (take (batch_size it) (drop (position it) (data it)),
          {| data := data it; batch_size := batch_size it;
             position := (position it + batch_size it)%nat |})
  else
    match policy with
    | DropRemainder => None
    | YieldSmaller =>
        if decide (0 < remaining)%nat then
          Some (drop (position it) (data it),
                {| data := data it; batch_size := batch_size it;
                   position := length (data it) |})
        else None
    end.

(** [for batch in it]: call [next] until the sequence ends, collecting the
    batches.  [fuel] bounds the number of calls; [None] means the bound was
    reached with the loop still running. *)
Fixpoint iterate (fuel : nat) (it : NDArrayIter)
  : option (list (list A) * NDArrayIter) :=
  match fuel with
  | O => None
  | S fuel' =>
      match next it with
      | None => Some ([], it)
      | Some (b, it') =>
          match iterate fuel' it' with
          | Some (bs, it'') => Some (b :: bs, it'')
          | None => None
          end
      end
  end.

(** The notebook's counting cell:
[[
counter = 0
for batch in train_data:
    counter += 1
]] *)
Definition count_batches (fuel : nat) (it : NDArrayIter) : option (nat * NDArrayIter) :=
  match iterate fuel it with
  | Some (bs, it') => Some (length bs, it')
  | None => None
  end.

Lemma next_exhausted (it : NDArrayIter) :
  (0 < batch_size it)%nat → position it = length (data it) → next it = None.
Proof.
  intros HB Hpos. unfold next. rewrite Hpos, Nat.sub_diag.
  destruct (decide _) as [Hle|_]; [lia|].
  destruct policy; [done|]. destruct (decide _); [lia|done].
Qed.

Lemma iterate_exhausted (fuel : nat) (it : NDArrayIter) :
  (0 < batch_size it)%nat → position it = length (data it) →
  iterate (S fuel) it = Some ([], it).
Proof. intros HB Hpos. simpl. by rewrite next_exhausted. Qed.

(** From a position with exactly [k] full batches left, a pass yields [k]
    batches of full size, in order, and stops at the end of the data. *)
Lemma iterate_full_batches (k : nat) :
  ∀ (fuel : nat) (it : NDArrayIter),
    (0 < batch_size it)%nat →
    length (data it) = (position it + k * batch_size it)%nat →
    (k < fuel)%nat →
    ∃ bs it',
      iterate fuel it = Some (bs, it')
      ∧ length bs = k
      ∧ Forall (λ b, length b = batch_size it) bs
      ∧ concat bs = drop (position it) (data it)
      ∧ data it' = data it ∧ batch_size it' = batch_size it
      ∧ position it' = length (data it).
Proof.
  induction k as [|k IH]; intros fuel it HB Hlen Hfuel.
  - destruct fuel as [|fuel]; [lia|].
    exists [], it. rewrite iterate_exhausted by lia.
    split_and!; try done. simpl. rewrite drop_ge; [done|lia]. lia.
  - destruct fuel as [|fuel]; [lia|]. simpl. unfold next.
    destruct (decide _) as [_|Hn]; [|simpl in Hn; lia].
    set (it1 := {| data := data it; batch_size := batch_size it;
                   position := (position it + batch_size it)%nat |}).
    destruct (IH fuel it1) as (bs & it' & Hrun & Hn & Hsz & Hcat & Hd & Hb & Hp);
      [done|simpl; lia|lia|].
    rewrite Hrun. exists (take (batch_size it) (drop (position it) (data it)) :: bs), it'.
    split_and!; try done.
    + simpl. by rewrite Hn.
    + constructor; [|done]. rewrite length_take, length_drop. simpl in *. lia.
    + simpl. rewrite Hcat. simpl.
      rewrite <- (take_drop (batch_size it) (drop (position it) (data it))) at 2.
      by rewrite drop_drop.
Qed.

End Iterator.

(** When the batch size divides the number of examples, the batches of a
    pass after [reset] are full and hold every example exactly once. *)
Lemma epoch_is_full_pass {A : Type} (shuffle : list A → list A)
    (policy : LastBatch) (it : NDArrayIter) (fuel : nat) :
  (∀ l, shuffle l ≡ₚ l) →
  (0 < batch_size it)%nat →
  (batch_size it | length (data it))%nat →
  (length (data it) `div` batch_size it < fuel)%nat →
  ∃ bs it',
    iterate policy fuel (reset shuffle it) = Some (bs, it')
    ∧ Forall (λ b, length b = batch_size it) bs
    ∧ concat bs ≡ₚ data it.
Proof.
  intros Hperm HB [q Hq] Hfuel.
  rewrite Hq, Nat.div_mul in Hfuel by lia.
  destruct (iterate_full_batches policy q fuel (reset shuffle it))
    as (bs & it' & Hrun & _ & Hsz & Hcat & _); [done| |done|].
  { simpl. by rewrite Hperm. }
  exists bs, it'. split_and!; [done..|].
  rewrite Hcat. simpl. by rewrite drop_0.
Qed.

(** C3: over a dataset whose size [N] is a multiple of the batch size [B],
    a pass after [reset] yields exactly [N / B] batches, and a second pass
    without another [reset] yields none. *)
Theorem epoch_visits_N_div_B_batches {A : Type} (shuffle : list A → list A)
    (policy : LastBatch) (it : NDArrayIter) (fuel : nat) :
  (∀ l, shuffle l ≡ₚ l) →
  (0 < batch_size it)%nat →
  (batch_size it | length (data it))%nat →
  (length (data it) `div` batch_size it < fuel)%nat →
  ∃ it',
    count_batches policy fuel (reset shuffle it)
    = Some (length (data it) `div` batch_size it, it')%nat
    ∧ ∀ fuel', (0 < fuel')%nat →
        count_batches policy fuel' it' = Some (0%nat, it').
Proof.
  intros Hperm HB [q Hq] Hfuel.
  assert (Hdiv : (length (data it) `div` batch_size it)%nat = q).
  { rewrite Hq. apply Nat.div_mul. lia. }
  rewrite Hdiv in *.
  destruct (iterate_full_batches policy q fuel (reset shuffle it))
    as (bs & it' & Hrun & Hn & _ & _ & Hd & Hb & Hp); [done| |done|].
  { simpl. by rewrite Hperm. }
  exists it'. unfold count_batches. rewrite Hrun, Hn. split; [done|].
  intros [|fuel'] ?; [lia|].
  rewrite iterate_exhausted; [done| |]; simpl in *; congruence.
Qed.

(** Four examples in batches of two; [reset] reverses the order. *)
Definition four_examples : NDArrayIter (A := nat) :=
  {| data := [1; 2; 3; 4]%nat; batch_size := 2; position := 0 |}.

Example two_batches_then_none :
  count_batches DropRemainder 3 (reset reverse four_examples)
  = Some (2%nat, {| data := [4; 3; 2; 1]%nat; batch_size := 2; position := 4 |})
  ∧ count_batches DropRemainder 3
      {| data := [4; 3; 2; 1]%nat; batch_size := 2; position := 4 |}
    = Some (0%nat, {| data := [4; 3; 2; 1]%nat; batch_size := 2; position := 4 |}).
Proof. split; reflexivity. Qed.

Lemma epoch_visits_N_div_B_batches_witness :
  (∀ l : list nat, reverse l ≡ₚ l)
  ∧ (0 < batch_size four_examples)%nat
  ∧ (batch_size four_examples | length (data four_examples))%nat
  ∧ (length (data four_examples) `div` batch_size four_examples < 3)%nat
  ∧ ∃ it',
      count_batches DropRemainder 3 (reset reverse four_examples)
      = Some (length (data four_examples) `div` batch_size four_examples, it')%nat
      ∧ ∀ fuel', (0 < fuel')%nat →
          count_batches DropRemainder fuel' it' = Some (0%nat, it').
Proof.
  assert (H1 : ∀ l : list nat, reverse l ≡ₚ l) by apply reverse_Permutation.
  assert (H2 : (0 < batch_size four_examples)%nat) by (simpl; lia).
  assert (H3 : (batch_size four_examples | length (data four_examples))%nat)
    by (exists 2%nat; reflexivity).
  assert (H4 : (length (data four_examples) `div` batch_size four_examples < 3)%nat)
    by (simpl; lia).
  split_and!; [exact H1|exact H2|exact H3|exact H4|].
  exact (epoch_visits_N_div_B_batches reverse DropRemainder four_examples 3
           H1 H2 H3 H4).
Defined.

End DataIter.

(** ** Parameters with attached gradients, and the SGD update *)

Module Optimizer.
Import ND.

(** A parameter after [attach_grad]: the value buffer and the gradient buffer
    that autograd fills.  Buffers are kept by rows; a 1-D array is one row. *)
Record NDArray := {
  value : matrix;
  grad : matrix
}.

(** Python objects live in a heap and are named by reference: the list
    [params] holds references, so two positions of the list may name one and
    the same array. *)
Abbreviation ref := nat.
Abbreviation heap := (gmap nat NDArray).

(** [param[:] = param - lr * param.grad]: the right-hand side is computed
    from the array's current buffers and written over its value buffer; the
    gradient buffer is not assigned. *)
Definition sgd_update (lr : R) (param : NDArray) : NDArray :=
  {| value := sub (value param) (scale lr (grad param)); grad := grad param |}.

(** [[
def SGD(params, lr):
    for param in params:
        param[:] = param - lr * param.grad
]]
    A Python reference always names a live object; on a key the heap does not
    hold, [alter] changes nothing. *)
Definition SGD (params : list ref) (lr : R) (h : heap) : heap :=
  foldl (λ h param, alter (sgd_update lr) param h) h params.

Lemma SGD_cons (param : ref) (params : list ref) (lr : R) (h : heap) :
  SGD (param :: params) lr h = SGD params lr (alter (sgd_update lr) param h).
Proof. reflexivity. Qed.

Lemma SGD_lookup_other (params : list ref) (lr : R) (h : heap) (r : ref) :
  r ∉ params → SGD params lr h !! r = h !! r.
Proof.
  revert h. induction params as [|q params IH]; intros h Hr; [done|].
  apply not_elem_of_cons in Hr as [Hne Hr].
  rewrite SGD_cons, IH by done. by apply lookup_alter_ne.
Qed.

Lemma SGD_lookup_grad (params : list ref) (lr : R) (h : heap) (r : ref) :
  grad <$> SGD params lr h !! r = grad <$> h !! r.
Proof.
  revert h. induction params as [|q params IH]; intros h; [done|].
  rewrite SGD_cons, IH. destruct (decide (q = r)) as [->|Hne].
  - rewrite lookup_alter_eq. by destruct (h !! r).
  - by rewrite lookup_alter_ne.
Qed.

Lemma SGD_dom (params : list ref) (lr : R) (h : heap) :
  dom (SGD params lr h) = dom h.
Proof.
  revert h. induction params as [|q params IH]; intros h; [done|].
  rewrite SGD_cons, IH. apply dom_alter_L.
Qed.

Lemma SGD_lookup_once (params : list ref) (lr : R) (h : heap) (r : ref) (p : NDArray) :
  NoDup params → r ∈ params → h !! r = Some p →
  SGD params lr h !! r = Some (sgd_update lr p).
Proof.
  revert h. induction params as [|q params IH]; intros h Hnd Hr Hp.
  - by apply elem_of_nil in Hr.
  - apply NoDup_cons in Hnd as [Hq Hnd]. rewrite SGD_cons.
    apply elem_of_cons in Hr as [->|Hr].
    + rewrite SGD_lookup_other by done. by rewrite lookup_alter_eq, Hp.
    + apply IH; [done..|]. rewrite lookup_alter_ne; [done|]. by intros ->.
Qed.

Lemma entry_sub_scale (lr : R) (a g : matrix) (i j : nat) (x d : R) :
  entry a i j = Some x → entry g i j = Some d →
  entry (sub a (scale lr g)) i j = Some (x - lr * d).
Proof.
  unfold entry, sub, scale. intros Ha Hg.
  destruct (a !! i) as [arow|] eqn:Hai; [|done].
  destruct (g !! i) as [grow|] eqn:Hgi; [|done]. simpl in *.
  rewrite lookup_zip_with, Hai, list_lookup_fmap, Hgi. simpl.
  by rewrite lookup_zip_with, Ha, list_lookup_fmap, Hg.
Qed.

(** C5 as the code has it: when no array is listed twice in [params], each
    listed parameter ends with its value before the call minus [lr] times its
    gradient before the call, entry by entry. *)
Theorem SGD_subtracts_lr_times_grad (params : list ref) (lr : R) (h : heap)
    (r : ref) (p : NDArray) :
  NoDup params →
  r ∈ params →
  h !! r = Some p →
  ∃ p',
    SGD params lr h !! r = Some p'
    ∧ value p' = sub (value p) (scale lr (grad p))
    ∧ ∀ i j x d,
        entry (value p) i j = Some x →
        entry (grad p) i j = Some d →
        entry (value p') i j = Some (x - lr * d).
Proof.
  intros Hnd Hr Hp. exists (sgd_update lr p). split_and!.
  - by apply SGD_lookup_once.
  - done.
  - intros i j x d. apply entry_sub_scale.
Qed.

(** One array, listed twice. *)
Definition one_array : heap := {[ 0%nat := {| value := [[1]]; grad := [[1]] |} ]}.

(** With the same array at both positions of [params] the loop body runs
    twice on it: from value 1, gradient 1 and [lr = 1] the array ends at
    [1 - 1 - 1], not at [1 - 1]. *)
Lemma SGD_listed_twice_counterexample :
  one_array !! 0%nat = Some {| value := [[1]]; grad := [[1]] |}
  ∧ SGD [0; 0]%nat 1 one_array !! 0%nat
    = Some {| value := [[1 - 1 * 1 - 1 * 1]]; grad := [[1]] |}
  ∧ sub [[1]] (scale 1 [[1]]) = [[1 - 1 * 1]]
  ∧ 1 - 1 * 1 - 1 * 1 ≠ 1 - 1 * 1.
Proof. split_and!; [reflexivity|reflexivity|reflexivity|lra]. Qed.

(** A weight row and a bias, each with its gradient. *)
Definition two_arrays : heap :=
  {[ 0%nat := {| value := [[1; 2]]; grad := [[3; 4]] |};
     1%nat := {| value := [[5]]; grad := [[6]] |} ]}.

Lemma SGD_subtracts_lr_times_grad_witness :
  NoDup [0; 1]%nat
  ∧ 0%nat ∈ [0; 1]%nat
  ∧ two_arrays !! 0%nat = Some {| value := [[1; 2]]; grad := [[3; 4]] |}
  ∧ ∃ p',
      SGD [0; 1]%nat (1 / 10) two_arrays !! 0%nat = Some p'
      ∧ value p' = sub [[1; 2]] (scale (1 / 10) [[3; 4]])
      ∧ ∀ i j x d,
          entry [[1; 2]] i j = Some x →
          entry [[3; 4]] i j = Some d →
          entry (value p') i j = Some (x - 1 / 10 * d).
Proof.
  assert (H1 : NoDup [0; 1]%nat) by (apply (bool_decide_unpack _); reflexivity).
  assert (H2 : 0%nat ∈ [0; 1]%nat) by apply list_elem_of_here.
  assert (H3 : two_arrays !! 0%nat = Some {| value := [[1; 2]]; grad := [[3; 4]] |})
    by reflexivity.
  split_and!; [exact H1|exact H2|exact H3|].
  exact (SGD_subtracts_lr_times_grad [0; 1]%nat (1 / 10) two_arrays 0%nat _ H1 H2 H3).
Defined.

(** C10: [SGD] leaves every gradient buffer as it was, changes no array
    outside [params], and neither creates nor removes an array. *)
Theorem SGD_touches_only_param_values (params : list ref) (lr : R) (h : heap) :
  (∀ r, grad <$> SGD params lr h !! r = grad <$> h !! r)
  ∧ (∀ r, r ∉ params → SGD params lr h !! r = h !! r)
  ∧ dom (SGD params lr h) = dom h.
Proof.
  split_and!.
  - intros r. apply SGD_lookup_grad.
  - intros r. apply SGD_lookup_other.
  - apply SGD_dom.
Qed.

End Optimizer.

(** ** The models, the losses and the accuracy loop *)

Module Model.
Import ND Softmax.

(** A batch as the iterator hands it over: examples with their labels.
    [batch.data[0]] (after the reshape to one row per example) and
    [batch.label[0]] are its two projections. *)
Definition batch_data {L : Type} (batch : list (list R * L)) : matrix := fst <$> batch.
Definition batch_label {L : Type} (batch : list (list R * L)) : list L := snd <$> batch.

(** Softmax notebook, with [W] and [b] the current values of the globals:
[[
def net(X):
    y_linear = nd.dot(X, W) + b
    yhat = softmax(y_linear)
    return yhat
]] *)
Definition net (W : matrix) (b : vector) (X : matrix) : matrix :=
  let y_linear := add_row (dot X W) b in
  let yhat := softmax y_linear in
  yhat.

(** [[
def cross_entropy(yhat, y):
    return - nd.sum(y * nd.log(yhat), axis=0, exclude=True)
]] *)
Definition cross_entropy (yhat y : matrix) : vector :=
  neg (sum_rows (mul y (ND.log yhat))).

(** [curr_loss = nd.mean(loss).asscalar()], the line of the training loop
    that reduces the per-example losses of a batch. *)
Definition curr_loss_of (loss : vector) : R := mean loss.

(** The accumulators of [evaluate_accuracy] after one more batch. *)
Definition accuracy_step (net : matrix → matrix) (acc : R * R)
    (batch : list (list R * nat)) : R * R :=
  let data := batch_data batch in
  let label := batch_label batch in
  let label_one_hot := one_hot label 10 in
  let output := net data in
  let predictions := argmax output in
  (acc.1 + sum (eq_elemwise predictions label), acc.2 + INR (length data)).

(** [[
def evaluate_accuracy(data_iterator, net):
    numerator = 0.
    denominator = 0.
    data_iterator.reset()
    for i, batch in enumerate(data_iterator):
        data = batch.data[0].as_in_context(ctx).reshape((-1,784))
        label = batch.label[0].as_in_context(ctx)
        label_one_hot = nd.one_hot(label, 10)
        output = net(data)
        predictions = nd.argmax(output, axis=1)
        numerator += nd.sum(predictions == label)
        denominator += data.shape[0]
    return (numerator / denominator).asscalar()
]]
    [batches] is the sequence the iterator yields after its [reset].  When
    it yields nothing the division is 0./0. on Python floats, which raises:
    [None]. *)
Definition evaluate_accuracy (batches : list (list (list R * nat)))
    (net : matrix → matrix) : option R :=
  let acc := foldl (accuracy_step net) (0, 0) batches in
  if Req_dec_T acc.2 0 then None else Some (acc.1 / acc.2).

(** Linear-regression notebook:
[[
def net(X):
    return mx.nd.dot(X, w) + b

def square_loss(yhat, y):
    return nd.mean((yhat - y) ** 2)
]] *)
Definition linear_net (w : matrix) (b : vector) (X : matrix) : matrix :=
  add_row (dot X w) b.

Definition square_loss (yhat y : matrix) : vector :=
  mean_all (square (sub yhat y)).

End Model.

(** ** The training loops *)

Module Training.
Import ND Optimizer Model.

(** One executed loop body, kept as a record of the run: epoch [e], batch
    index [i], the batch's mean loss, and [moving_loss] before and after the
    update.  The notebooks keep only the latest [moving_loss]; the list of
    steps exists to state what happened at each batch. *)
Record Step := {
  step_epoch : nat;
  step_index : nat;
  step_curr_loss : R;
  step_moving_before : R;
  step_moving_after : R
}.

Record LoopState := {
  arrays : heap;
  moving_loss : R;
  history : list Step
}.

(** Before the loop: [moving_loss = 0.] *)
Definition initial (h : heap) : LoopState :=
  {| arrays := h; moving_loss := 0; history := [] |}.

Section Loop.
Context {L : Type}.

(** The code under [autograd.record()], giving the loss array of a batch. *)
Variable forward_loss : heap → list (list R * L) → vector.
(** [loss.backward()]: autograd writes the gradient buffers.  It is MXNet's,
    so any function of the arrays and the batch may stand for it. *)
Variable backward : heap → list (list R * L) → heap.
Variable params : list ref.
Variable learning_rate : R.
(** The assignment to [moving_loss], as a function of [e], [i], the old
    [moving_loss] and the batch's mean loss. *)
Variable update_moving_loss : nat → nat → R → R → R.
(** The batches [train_data] yields in epoch [e], after its [reset]. *)
Variable epoch_batches : nat → list (list (list R * L)).

(** The body of [for i, batch in enumerate(train_data)]. *)
Definition batch_step (e i : nat) (st : LoopState) (batch : list (list R * L))
  : LoopState :=
  let loss := forward_loss (arrays st) batch in
  let h := backward (arrays st) batch in
  let h := SGD params learning_rate h in
  let curr_loss := curr_loss_of loss in
  let moving := update_moving_loss e i (moving_loss st) curr_loss in
  {| arrays := h;
     moving_loss := moving;
     history := history st ++
       [{| step_epoch := e; step_index := i; step_curr_loss := curr_loss;
           step_moving_before := moving_loss st;
           step_moving_after := moving |}] |}.

(** [enumerate] counts from [i]. *)
Fixpoint run_batches (e i : nat) (batches : list (list (list R * L)))
    (st : LoopState) : LoopState :=
  match batches with
  | [] => st
  | batch :: rest => run_batches e (S i) rest (batch_step e i st batch)
  end.

(** The body of [for e in range(epochs)]. *)
Definition run_epoch (st : LoopState) (e : nat) : LoopState :=
  run_batches e 0 (epoch_batches e) st.

Definition train (epochs : nat) (st : LoopState) : LoopState :=
  foldl run_epoch st (seq 0 epochs).

End Loop.

(** *** Softmax notebook *)

(** The globals [W] and [b], and [params = [W, b]]. *)
Definition W : ref := 0%nat.
Definition b : ref := 1%nat.
Definition params : list ref := [W; b].

Definition value_of (h : heap) (r : ref) : matrix :=
  default [] (value <$> h !! r).

(** A 1-D array is kept as one row. *)
Definition as_vector (a : matrix) : vector := default [] (head a).

(** [[
label_one_hot = nd.one_hot(label, 10)
with autograd.record():
    output = net(data)
    loss = cross_entropy(output, label_one_hot)
]] *)
Definition softmax_forward_loss (h : heap) (batch : list (list R * nat)) : vector :=
  let data := batch_data batch in
  let label := batch_label batch in
  let label_one_hot := one_hot label 10 in
  let output := net (value_of h W) (as_vector (value_of h b)) data in
  cross_entropy output label_one_hot.

(** [learning_rate = .001] and [smoothing_constant = .01] *)
Definition learning_rate : R := 1 / 1000.
Definition smoothing_constant : R := 1 / 100.

(** [[
moving_loss = (curr_loss if ((i == 0) and (e == 0))
               else (1 - smoothing_constant) * moving_loss + (smoothing_constant) * curr_loss)
]] *)
Definition softmax_update_moving_loss (e i : nat) (moving_loss curr_loss : R) : R :=
  if (i =? 0)%nat && (e =? 0)%nat then curr_loss
  else (1 - smoothing_constant) * moving_loss + smoothing_constant * curr_loss.

(** The accuracy evaluation and the [print] that end each epoch read the
    arrays and [moving_loss] and change neither; the loop below leaves them
    out. *)
Definition softmax_training (backward : heap → list (list R * nat) → heap)
    (epoch_batches : nat → list (list (list R * nat))) (epochs : nat) (h : heap)
  : LoopState :=
  train softmax_forward_loss backward params learning_rate
    softmax_update_moving_loss epoch_batches epochs (initial h).

(** *** Linear-regression notebook *)

(** The globals [w] and [b], and [params = [w, b]]. *)
Definition w : ref := 0%nat.

(** [[
label = batch.label[0].as_in_context(ctx).reshape((-1, 1))
with autograd.record():
    output = net(data)
    mse = square_loss(output, label)
]] *)
Definition linreg_forward_loss (h : heap) (batch : list (list R * R)) : vector :=
  let data := batch_data batch in
  let label := (λ y : R, [y]) <$> batch_label batch in
  let output := linear_net (value_of h w) (as_vector (value_of h b)) data in
  square_loss output label.

(** [[
if (i == 0) and (e == 0):
    moving_loss = nd.mean(mse).asscalar()
else:
    moving_loss = .99 * moving_loss + .01 * nd.mean(mse).asscalar()
]] *)
Definition linreg_update_moving_loss (e i : nat) (moving_loss mse_mean : R) : R :=
  if (i =? 0)%nat && (e =? 0)%nat then mse_mean
  else 99 / 100 * moving_loss + 1 / 100 * mse_mean.

Definition linreg_training (backward : heap → list (list R * R) → heap)
    (epoch_batches : nat → list (list (list R * R))) (epochs : nat) (h : heap)
  : LoopState :=
  train linreg_forward_loss backward [w; b] learning_rate
    linreg_update_moving_loss epoch_batches epochs (initial h).

End Training.

(** ** Cross-entropy *)

Module LossFacts.
Import ND NDFacts Softmax Model.

(** Two arrays of one shape: as many rows, and rows of equal length. *)
Definition same_shape (a c : matrix) : Prop :=
  Forall2 (λ r r' : vector, length r = length r') a c.

(** The sum over the classes [j] of [y_j * log yhat_j], written with
    indices. *)
Definition weighted_log_sum (y yhat : vector) : R :=
  sum ((λ j, default 0 (y !! j) * ln (default 0 (yhat !! j))) <$> seq 0 (length y)).

Lemma zip_mul_log_indexed (y yhat : vector) :
  length yhat = length y →
  zip_with Rmult y (ln <$> yhat)
  = (λ j, default 0 (y !! j) * ln (default 0 (yhat !! j))) <$> seq 0 (length y).
Proof.
  intros Hlen. apply list_eq. intros k.
  rewrite lookup_zip_with, !list_lookup_fmap.
  destruct (decide (k < length y)%nat) as [Hk|Hk].
  - destruct (lookup_lt_is_Some_2 y k Hk) as [u Hu].
    destruct (lookup_lt_is_Some_2 yhat k ltac:(lia)) as [v Hv].
    rewrite Hu, Hv, lookup_seq_lt by done. simpl. by rewrite Hu, Hv.
  - rewrite (lookup_ge_None_2 y), lookup_seq_ge by lia. done.
Qed.

Lemma cross_entropy_lookup (yhat y : matrix) (i : nat) (yhat_i y_i : vector) :
  yhat !! i = Some yhat_i → y !! i = Some y_i →
  cross_entropy yhat y !! i = Some (- sum (zip_with Rmult y_i (ln <$> yhat_i))).
Proof.
  intros Hyh Hy. unfold cross_entropy, neg, sum_rows, mul, ND.log.
  by rewrite !list_lookup_fmap, lookup_zip_with, Hy, list_lookup_fmap, Hyh.
Qed.

Lemma cross_entropy_length (yhat y : matrix) :
  length y = length yhat → length (cross_entropy yhat y) = length yhat.
Proof.
  intros Hlen. unfold cross_entropy, neg, sum_rows, mul, ND.log.
  rewrite !length_fmap, length_zip_with, length_fmap. lia.
Qed.

(** C6: for [yhat] and [y] of one shape, [cross_entropy] returns one number
    per example, minus the sum over the classes of [y[i][j] * log yhat[i][j]];
    the mean over the batch is taken by the training loop's [curr_loss]
    line. *)
Theorem cross_entropy_per_example (yhat y : matrix) :
  same_shape yhat y →
  length (cross_entropy yhat y) = length yhat
  ∧ (∀ i yhat_i y_i,
       yhat !! i = Some yhat_i → y !! i = Some y_i →
       cross_entropy yhat y !! i = Some (- weighted_log_sum y_i yhat_i))
  ∧ curr_loss_of (cross_entropy yhat y)
    = sum (cross_entropy yhat y) / INR (length yhat).
Proof.
  intros Hshape.
  assert (Hlen : length (cross_entropy yhat y) = length yhat).
  { apply cross_entropy_length. symmetry. by eapply Forall2_length. }
  split_and!; [done| |].
  - intros i yhat_i y_i Hyh Hy.
    rewrite (cross_entropy_lookup _ _ _ _ _ Hyh Hy). do 2 f_equal.
    unfold weighted_log_sum. rewrite <- zip_mul_log_indexed; [done|].
    exact (Forall2_lookup_lr _ _ _ _ _ _ Hshape Hyh Hy).
  - unfold curr_loss_of, mean. by rewrite Hlen.
Qed.

(** Predictions and one-hot labels of two examples. *)
Definition yhat_example : matrix := [[1 / 4; 3 / 4]; [1 / 2; 1 / 2]].
Definition y_example : matrix := [[0; 1]; [1; 0]].

Lemma cross_entropy_per_example_witness :
  same_shape yhat_example y_example
  ∧ length (cross_entropy yhat_example y_example) = length yhat_example
  ∧ (∀ i yhat_i y_i,
       yhat_example !! i = Some yhat_i → y_example !! i = Some y_i →
       cross_entropy yhat_example y_example !! i
       = Some (- weighted_log_sum y_i yhat_i))
  ∧ curr_loss_of (cross_entropy yhat_example y_example)
    = sum (cross_entropy yhat_example y_example) / INR (length yhat_example).
Proof.
  assert (H : same_shape yhat_example y_example).
  { repeat (apply Forall2_cons; split; [reflexivity|]). apply Forall2_nil_2. }
  split; [exact H|]. exact (cross_entropy_per_example yhat_example y_example H).
Defined.

End LossFacts.

(** ** The index of the largest entry *)

Module ArgmaxFacts.
Import ND NDFacts.

(** Scanning [row] as the part of [l] after [pre], with [best] the largest
    element of [pre] found at [besti], ends on an index of [l] that holds an
    upper bound of all of [l]. *)
Lemma argmax_from_spec (row : vector) :
  ∀ (pre : vector) (best : R) (besti : nat),
    (pre ++ row) !! besti = Some best →
    Forall (λ y, y <= best) pre →
    ∃ v, (pre ++ row) !! argmax_from best besti (length pre) row = Some v
         ∧ Forall (λ y, y <= v) (pre ++ row).
Proof.
  induction row as [|x xs IH]; intros pre best besti Hbest Hpre; simpl.
  - exists best. by rewrite app_nil_r in *.
  - replace (pre ++ x :: xs) with ((pre ++ [x]) ++ xs) in *
      by (by rewrite <- app_assoc).
    replace (S (length pre)) with (length (pre ++ [x]))
      by (rewrite length_app; simpl; lia).
    destruct (Rlt_dec best x) as [Hlt|Hge].
    + apply IH.
      * rewrite lookup_app_l by (rewrite length_app; simpl; lia).
        by rewrite lookup_app_r, Nat.sub_diag.
      * apply Forall_app. split; [|apply Forall_singleton; lra].
        eapply Forall_impl; [exact Hpre|]. simpl. intros; lra.
    + apply IH; [done|].
      apply Forall_app. split; [done|]. apply Forall_singleton. lra.
Qed.

Lemma argmax_row_spec (row : vector) :
  row ≠ [] →
  ∃ v, row !! argmax_row row = Some v ∧ Forall (λ y, y <= v) row.
Proof.
  destruct row as [|x xs]; [done|]. intros _.
  apply (argmax_from_spec xs [x] x 0%nat); [done|]. apply Forall_singleton. lra.
Qed.

Lemma lookup_le_sum (v : vector) (k : nat) (x : R) :
  Forall (λ y, 0 <= y) v → v !! k = Some x → x <= sum v.
Proof.
  intros Hv. revert k. induction Hv as [|y v Hy Hv IH]; intros k Hk; [done|].
  pose proof (sum_nonneg v Hv). destruct k as [|k]; simpl in *.
  - injection Hk as ->. lra.
  - specialize (IH k Hk). lra.
Qed.

End ArgmaxFacts.

(** ** Cross-entropy of a distribution against the label it predicts *)

Module OwnLabel.
Import ND NDFacts Softmax Model LossFacts ArgmaxFacts.

(** A probability vector with positive entries. *)
Definition is_distribution (p : vector) : Prop :=
  Forall (λ x, 0 < x) p ∧ sum p = 1.

(** The probability [p] gives to the class it predicts. *)
Definition true_class_prob (p : vector) : R := default 0 (p !! argmax_row p).

(** [cross_entropy] of the one-example batch [[p]] against the one-hot row of
    [p]'s own [argmax]. *)
Definition own_label_loss (p : vector) : vector :=
  cross_entropy [p] (one_hot [argmax_row p] (length p)).

Lemma sum_indicator_mul (v : vector) :
  ∀ s k : nat,
    sum (zip_with Rmult ((λ j, if (j =? k)%nat then 1 else 0) <$> seq s (length v)) v)
    = if decide (s ≤ k < s + length v)%nat then default 0 (v !! (k - s)%nat) else 0.
Proof.
  induction v as [|x v IH]; intros s k; csimpl.
  - destruct (decide _); [lia|done].
  - rewrite IH. destruct (Nat.eqb_spec s k) as [->|Hne].
    + rewrite Nat.sub_diag. simpl.
      destruct (decide (S k ≤ k < _)%nat); [lia|].
      destruct (decide _); [lra|lia].
    + destruct (decide (S s ≤ k < _)%nat) as [Hin|Hout].
      * destruct (decide _); [|lia].
        replace (k - s)%nat with (S (k - S s)) by lia. simpl. lra.
      * destruct (decide _); [lia|]. lra.
Qed.

Lemma sum_one_hot_mul (v : vector) (k : nat) :
  (k < length v)%nat →
  sum (zip_with Rmult (one_hot_row (length v) k) v) = default 0 (v !! k).
Proof.
  intros Hk. unfold one_hot_row. rewrite sum_indicator_mul.
  destruct (decide _); [|lia]. by rewrite Nat.sub_0_r.
Qed.

Lemma own_label_loss_eq (p : vector) :
  p ≠ [] → own_label_loss p = [- ln (true_class_prob p)].
Proof.
  intros Hne. destruct (argmax_row_spec p Hne) as (v & Hv & _).
  unfold own_label_loss, cross_entropy, neg, sum_rows, mul, ND.log, one_hot.
  csimpl. do 2 f_equal.
  rewrite <- (length_fmap ln p), sum_one_hot_mul.
  - unfold true_class_prob. by rewrite list_lookup_fmap, Hv.
  - rewrite length_fmap. by eapply lookup_lt_Some.
Qed.

Lemma distribution_nonempty (p : vector) : is_distribution p → p ≠ [].
Proof. intros [_ Hsum] ->. simpl in Hsum. lra. Qed.

Lemma true_class_prob_range (p : vector) :
  is_distribution p → 0 < true_class_prob p <= 1.
Proof.
  intros Hp. pose proof (distribution_nonempty p Hp) as Hne.
  destruct Hp as [Hpos Hsum].
  destruct (argmax_row_spec p Hne) as (v & Hv & _).
  unfold true_class_prob. rewrite Hv. simpl. split.
  - by eapply (Forall_lookup_1 _ _ _ _ Hpos).
  - rewrite <- Hsum. eapply lookup_le_sum; [|done].
    eapply Forall_impl; [exact Hpos|]. simpl. intros; lra.
Qed.

(** C9: for a probability vector [p] with positive entries, the
    cross-entropy against the one-hot label at [p]'s own argmax is one number
    [c = - ln (true_class_prob p)]; it is not negative, positive whenever the
    true-class probability is below 1, zero only at probability 1, smaller for
    a vector that gives its true class more probability, and below any
    [eps > 0] once that probability exceeds [exp (- eps)]. *)
Theorem own_label_cross_entropy (p : vector) :
  is_distribution p →
  ∃ c,
    own_label_loss p = [c]
    ∧ 0 <= c
    ∧ (true_class_prob p < 1 → 0 < c)
    ∧ (c = 0 → true_class_prob p = 1)
    ∧ (∀ q d, is_distribution q → own_label_loss q = [d] →
         true_class_prob p < true_class_prob q → d < c)
    ∧ (∀ eps, 0 < eps → Rtrigo_def.exp (- eps) < true_class_prob p → c < eps).
Proof.
  intros Hp. pose proof (true_class_prob_range p Hp) as [Hpos Hle].
  exists (- ln (true_class_prob p)).
  assert (Hlt : true_class_prob p < 1 → 0 < - ln (true_class_prob p)).
  { intros H1. pose proof (ln_increasing _ _ Hpos H1) as Hln.
    rewrite ln_1 in Hln. lra. }
  split_and!.
  - apply own_label_loss_eq. by apply distribution_nonempty.
  - destruct Hle as [H1|H1]; [specialize (Hlt H1); lra|].
    rewrite H1, ln_1. lra.
  - exact Hlt.
  - intros Hc. destruct Hle as [H1|H1]; [specialize (Hlt H1); lra|done].
  - intros q d Hq Hd Hpq.
    rewrite own_label_loss_eq in Hd by (by apply distribution_nonempty).
    injection Hd as <-.
    pose proof (ln_increasing _ _ Hpos Hpq). lra.
  - intros eps Heps Hexp.
    pose proof (ln_increasing _ _ (exp_pos (- eps)) Hexp) as Hln.
    rewrite ln_exp in Hln. lra.
Qed.

Definition p_example : vector := [1 / 4; 3 / 4].

Lemma own_label_cross_entropy_witness :
  is_distribution p_example
  ∧ ∃ c,
      own_label_loss p_example = [c]
      ∧ 0 <= c
      ∧ (true_class_prob p_example < 1 → 0 < c)
      ∧ (c = 0 → true_class_prob p_example = 1)
      ∧ (∀ q d, is_distribution q → own_label_loss q = [d] →
           true_class_prob p_example < true_class_prob q → d < c)
      ∧ (∀ eps, 0 < eps →
           Rtrigo_def.exp (- eps) < true_class_prob p_example → c < eps).
Proof.
  assert (H : is_distribution p_example).
  { split; [|simpl; lra].
    repeat (apply Forall_cons; split; [lra|]). apply Forall_nil_2. }
  split; [exact H|]. exact (own_label_cross_entropy p_example H).
Defined.

End OwnLabel.

(** ** Accuracy *)

Module AccuracyFacts.
Import ND NDFacts Softmax SoftmaxFacts Model.

(** The class predicted for one example: the argmax of the forward output on
    the batch that holds this example alone. *)
Definition predicted_class (W : matrix) (b : vector) (x : vector) : nat :=
  argmax_row (default [] (head (net W b [x]))).

(** Examples of [l] whose predicted class is their label. *)
Definition correct (W : matrix) (b : vector) (l : list (list R * nat))
  : list (list R * nat) :=
  filter (λ ex, predicted_class W b ex.1 = ex.2) l.

(** The linear scores of one example. *)
Definition scores_of (W : matrix) (b : vector) (x : vector) : vector :=
  zip_with Rplus ((λ j, inner x (column j W)) <$> seq 0 (width W)) b.

(** The forward output of a batch is, row by row, the output for each
    example alone: the number [softmax] subtracts cancels in every row. *)
Lemma net_by_rows (W : matrix) (b : vector) (X : matrix) :
  net W b X = (λ x, softmax_row (scores_of W b x)) <$> X.
Proof.
  unfold net. rewrite softmax_by_rows. unfold add_row, dot.
  by rewrite <- !list_fmap_compose.
Qed.

Lemma predicted_class_eq (W : matrix) (b : vector) (x : vector) :
  predicted_class W b x = argmax_row (softmax_row (scores_of W b x)).
Proof. unfold predicted_class. by rewrite net_by_rows. Qed.

Lemma batch_hits (W : matrix) (b : vector) (batch : list (list R * nat)) :
  sum (eq_elemwise (argmax (net W b (batch_data batch))) (batch_label batch))
  = INR (length (correct W b batch)).
Proof.
  rewrite net_by_rows. unfold argmax, batch_data, batch_label, eq_elemwise, correct.
  rewrite <- !list_fmap_compose.
  induction batch as [|[x l] batch IH]; [done|]. csimpl. rewrite IH.
  rewrite filter_cons. simpl. rewrite predicted_class_eq.
  destruct (Nat.eqb_spec (argmax_row (softmax_row (scores_of W b x))) l) as [Heq|Hne].
  - rewrite decide_True by done. simpl length. rewrite S_INR. lra.
  - rewrite decide_False by done. lra.
Qed.

Lemma accuracy_fold (W : matrix) (b : vector) (batches : list (list (list R * nat))) :
  ∀ acc : R * R,
    foldl (accuracy_step (net W b)) acc batches
    = (acc.1 + INR (length (correct W b (concat batches))),
       acc.2 + INR (length (concat batches))).
Proof.
  induction batches as [|batch batches IH]; intros [n d]; simpl.
  - f_equal; lra.
  - rewrite IH. unfold accuracy_step, correct in *. simpl.
    rewrite batch_hits. unfold correct, batch_data.
    rewrite filter_app, !length_app, !plus_INR, length_fmap. f_equal; lra.
Qed.

Lemma correct_Permutation (W : matrix) (b : vector) (l l' : list (list R * nat)) :
  l ≡ₚ l' → length (correct W b l) = length (correct W b l').
Proof. intros Hp. unfold correct. by rewrite Hp. Qed.

(** When the batches of the pass hold each example of a non-empty dataset
    exactly once, [evaluate_accuracy] returns the number of examples whose
    predicted class (argmax of the forward output) is their label, divided by
    the number of examples. *)
Lemma evaluate_accuracy_is_fraction_correct (W : matrix) (b : vector)
    (dataset : list (list R * nat)) (batches : list (list (list R * nat))) :
  concat batches ≡ₚ dataset →
  dataset ≠ [] →
  evaluate_accuracy batches (net W b)
  = Some (INR (length (correct W b dataset)) / INR (length dataset)).
Proof.
  intros Hpass Hne. unfold evaluate_accuracy. rewrite accuracy_fold. simpl.
  rewrite (correct_Permutation W b _ _ Hpass), (Permutation_length Hpass).
  assert (0 < INR (length dataset)).
  { apply lt_0_INR. destruct dataset; [done|simpl; lia]. }
  destruct (Req_dec_T _ _) as [Hz|_]; [lra|].
  f_equal. f_equal; lra.
Qed.

(** One input feature, two classes, two examples in two batches. *)
Definition W_example : matrix := [[1; 0]].
Definition b_example : vector := [0; 0].
Definition dataset_example : list (list R * nat) := [([1], 0%nat); ([2], 1%nat)].
Definition batches_example : list (list (list R * nat)) :=
  [[([2], 1%nat)]; [([1], 0%nat)]].

Example fraction_correct_two_batches :
  concat batches_example ≡ₚ dataset_example
  ∧ dataset_example ≠ []
  ∧ evaluate_accuracy batches_example (net W_example b_example)
    = Some (INR (length (correct W_example b_example dataset_example))
            / INR (length dataset_example)).
Proof.
  assert (H1 : concat batches_example ≡ₚ dataset_example) by apply Permutation_swap.
  assert (H2 : dataset_example ≠ []) by discriminate.
  split_and!; [exact H1|exact H2|].
  exact (evaluate_accuracy_is_fraction_correct W_example b_example
           dataset_example batches_example H1 H2).
Qed.

End AccuracyFacts.

(** ** The moving average of the loss *)

Module TrainingFacts.
Import ND Optimizer Model Training.

(** [moving_loss] after the steps [hs], starting from [m]. *)
Definition last_moving (m : R) (hs : list Step) : R :=
  foldl (λ _ s, step_moving_after s) m hs.

(** A step outside the very first loop body. *)
Definition unseeded (s : Step) : Prop :=
  ¬ (step_epoch s = 0%nat ∧ step_index s = 0%nat).

(** The moving averages the notebooks describe, for the mean losses of the
    batches in the order they are processed: the first average is the first
    loss itself, every later one is [sc] times the loss plus [1 - sc] times
    the average before it. *)
Fixpoint averages_from (sc m : R) (losses : list R) : list R :=
  match losses with
  | [] => []
  | c :: rest =>
      (sc * c + (1 - sc) * m) :: averages_from sc (sc * c + (1 - sc) * m) rest
  end.

Definition running_averages (sc : R) (losses : list R) : list R :=
  match losses with
  | [] => []
  | c :: rest => c :: averages_from sc c rest
  end.

(** A finished run against the list [losses] of the mean losses of its
    batches: the loop body ran once per loss, in order, and recorded it as
    its [curr_loss]; [moving_loss] after each body is the moving average
    above; the final [moving_loss] is the last of them. *)
Definition seeded_then_averaged (sc : R) (losses : list R) (final : LoopState)
  : Prop :=
  step_curr_loss <$> history final = losses
  ∧ step_moving_after <$> history final = running_averages sc losses
  ∧ moving_loss final = default 0 (last (running_averages sc losses)).

Section LoopFacts.
Context {L : Type}.
Variable forward_loss : heap → list (list R * L) → vector.
Variable backward : heap → list (list R * L) → heap.
Variable params : list ref.
Variable learning_rate : R.
Variable update_moving_loss : nat → nat → R → R → R.
Variable epoch_batches : nat → list (list (list R * L)).

Local Abbreviation run_batches :=
  (run_batches forward_loss backward params learning_rate update_moving_loss).
Local Abbreviation run_epoch :=
  (run_epoch forward_loss backward params learning_rate update_moving_loss
     epoch_batches).

(** Each step starts from the [moving_loss] the one before it left, and
    leaves what the update computes from it. *)
Fixpoint chained (m : R) (hs : list Step) : Prop :=
  match hs with
  | [] => True
  | s :: hs' =>
      step_moving_before s = m
      ∧ step_moving_after s
        = update_moving_loss (step_epoch s) (step_index s) m (step_curr_loss s)
      ∧ chained (step_moving_after s) hs'
  end.

Lemma chained_app (m : R) (h1 h2 : list Step) :
  chained m h1 → chained (last_moving m h1) h2 → chained m (h1 ++ h2).
Proof.
  revert m. induction h1 as [|s h1 IH]; intros m H1 H2; [done|].
  destruct H1 as (Hb & Ha & H1). simpl. split_and!; [done..|].
  apply IH; [done|]. exact H2.
Qed.

Lemma chained_consecutive (m : R) (hs : list Step) (k : nat) (s1 s2 : Step) :
  chained m hs → hs !! k = Some s1 → hs !! S k = Some s2 →
  step_moving_before s2 = step_moving_after s1
  ∧ step_moving_after s2
    = update_moving_loss (step_epoch s2) (step_index s2) (step_moving_after s1)
        (step_curr_loss s2).
Proof.
  revert m k. induction hs as [|s hs IH]; intros m k Hc H1 H2; [done|].
  destruct Hc as (_ & _ & Hc). destruct k as [|k]; simpl in *.
  - injection H1 as <-. destruct hs as [|s' hs]; [done|].
    injection H2 as <-. destruct Hc as (Hb & Ha & _). by rewrite Hb.
  - by eapply IH.
Qed.

(** The steps one pass over [batches] adds, counting from index [i]. *)
Lemma run_batches_steps (batches : list (list (list R * L))) :
  ∀ (e i : nat) (st : LoopState),
    ∃ steps,
      history (run_batches e i batches st) = history st ++ steps
      ∧ chained (moving_loss st) steps
      ∧ moving_loss (run_batches e i batches st) = last_moving (moving_loss st) steps
      ∧ Forall (λ s, step_epoch s = e ∧ (i ≤ step_index s)%nat) steps
      ∧ Forall (λ s, (S i ≤ step_index s)%nat) (tail steps)
      ∧ (∀ b0 rest, batches = b0 :: rest →
           ∃ s steps', steps = s :: steps'
             ∧ step_index s = i
             ∧ step_curr_loss s = curr_loss_of (forward_loss (arrays st) b0)).
Proof.
  induction batches as [|batch batches IH]; intros e i st; simpl.
  - exists []. rewrite app_nil_r. split_and!; try done; constructor.
  - destruct (IH e (S i) (batch_step forward_loss backward params learning_rate
                            update_moving_loss e i st batch))
      as (steps & Hh & Hc & Hm & He & _ & _).
    eexists (_ :: steps). split_and!.
    + rewrite Hh. simpl. rewrite <- app_assoc. reflexivity.
    + simpl. split_and!; [done..|]. exact Hc.
    + rewrite Hm. reflexivity.
    + constructor; [done|]. eapply Forall_impl; [exact He|].
      simpl. intros s [? ?]. split; [done|lia].
    + simpl. eapply Forall_impl; [exact He|]. simpl. by intros s [? ?].
    + intros b0 rest [= <- <-]. eauto.
Qed.

Lemma last_moving_app (m : R) (h1 h2 : list Step) :
  last_moving m (h1 ++ h2) = last_moving (last_moving m h1) h2.
Proof. apply foldl_app. Qed.

(** The steps the epochs [a], [a + 1], ..., [a + n - 1] add. *)
Lemma run_epochs_steps (n : nat) :
  ∀ (a : nat) (st : LoopState),
    ∃ steps,
      history (foldl run_epoch st (seq a n)) = history st ++ steps
      ∧ chained (moving_loss st) steps
      ∧ moving_loss (foldl run_epoch st (seq a n)) = last_moving (moving_loss st) steps
      ∧ Forall (λ s, (a ≤ step_epoch s)%nat) steps
      ∧ Forall unseeded (tail steps)
      ∧ ((0 < n)%nat → ∀ b0 rest, epoch_batches a = b0 :: rest →
           ∃ s steps', steps = s :: steps'
             ∧ step_epoch s = a ∧ step_index s = 0%nat
             ∧ step_curr_loss s = curr_loss_of (forward_loss (arrays st) b0)).
Proof.
  induction n as [|n IH]; intros a st; simpl.
  - exists []. rewrite app_nil_r. split_and!; try done; [constructor..|lia].
  - destruct (run_batches_steps (epoch_batches a) a 0%nat st)
      as (steps1 & Hh1 & Hc1 & Hm1 & He1 & Hi1 & Hhd1).
    fold (run_epoch st a) in *.
    destruct (IH (S a) (run_epoch st a))
      as (steps2 & Hh2 & Hc2 & Hm2 & He2 & _ & _).
    assert (Hun2 : Forall unseeded steps2).
    { eapply Forall_impl; [exact He2|]. unfold unseeded. simpl. intros s ? [? _]. lia. }
    exists (steps1 ++ steps2). split_and!.
    + rewrite Hh2, Hh1. by rewrite <- app_assoc.
    + apply chained_app; [done|]. by rewrite <- Hm1.
    + by rewrite Hm2, Hm1, last_moving_app.
    + apply Forall_app. split.
      * eapply Forall_impl; [exact He1|]. simpl. intros s [-> _]. done.
      * eapply Forall_impl; [exact He2|]. simpl. intros; lia.
    + destruct steps1 as [|s1 steps1]; simpl.
      * by apply Forall_tail.
      * apply Forall_app. split; [|done].
        eapply Forall_impl; [exact Hi1|]. unfold unseeded. simpl. intros s ? [_ ?]. lia.
    + intros _ b0 rest Hb.
      destruct (Hhd1 b0 rest Hb) as (s & steps' & -> & Hi & Hl).
      exists s, (steps' ++ steps2). split_and!; try done.
      apply Forall_cons_1 in He1 as [[He _] _]. exact He.
Qed.

(** The arrays after the updates of [batches], one after the other. *)
Definition arrays_after (h : heap) (batches : list (list (list R * L))) : heap :=
  foldl (λ h batch, SGD params learning_rate (backward h batch)) h batches.

(** The mean of the loss array of each batch, written out as its sum over
    its length, each computed on the arrays as the updates for the batches
    before it left them. *)
Fixpoint batch_mean_losses (h : heap) (batches : list (list (list R * L))) : list R :=
  match batches with
  | [] => []
  | batch :: rest =>
      sum (forward_loss h batch) / INR (length (forward_loss h batch))
      :: batch_mean_losses (SGD params learning_rate (backward h batch)) rest
  end.

Lemma batch_mean_losses_app (h : heap) (l1 l2 : list (list (list R * L))) :
  batch_mean_losses h (l1 ++ l2)
  = batch_mean_losses h l1 ++ batch_mean_losses (arrays_after h l1) l2.
Proof.
  revert h. induction l1 as [|batch l1 IH]; intros h; [done|].
  simpl. by rewrite IH.
Qed.

Lemma arrays_after_app (h : heap) (l1 l2 : list (list (list R * L))) :
  arrays_after h (l1 ++ l2) = arrays_after (arrays_after h l1) l2.
Proof. apply foldl_app. Qed.

(** The mean losses one pass over [batches] records, and the arrays it
    leaves. *)
Lemma run_batches_losses (batches : list (list (list R * L))) :
  ∀ (e i : nat) (st : LoopState),
    ∃ steps,
      history (run_batches e i batches st) = history st ++ steps
      ∧ step_curr_loss <$> steps = batch_mean_losses (arrays st) batches
      ∧ arrays (run_batches e i batches st) = arrays_after (arrays st) batches.
Proof.
  induction batches as [|batch batches IH]; intros e i st; simpl.
  - exists []. by rewrite app_nil_r.
  - destruct (IH e (S i) (batch_step forward_loss backward params learning_rate
                            update_moving_loss e i st batch))
      as (steps & Hh & Hl & Ha).
    eexists (_ :: steps). split_and!.
    + rewrite Hh. simpl. rewrite <- app_assoc. reflexivity.
    + simpl. f_equal. exact Hl.
    + exact Ha.
Qed.

Lemma run_epochs_losses (n : nat) :
  ∀ (a : nat) (st : LoopState),
    ∃ steps,
      history (foldl run_epoch st (seq a n)) = history st ++ steps
      ∧ step_curr_loss <$> steps
        = batch_mean_losses (arrays st) (concat (epoch_batches <$> seq a n))
      ∧ arrays (foldl run_epoch st (seq a n))
        = arrays_after (arrays st) (concat (epoch_batches <$> seq a n)).
Proof.
  induction n as [|n IH]; intros a st; simpl.
  - exists []. by rewrite app_nil_r.
  - destruct (run_batches_losses (epoch_batches a) a 0%nat st)
      as (steps1 & Hh1 & Hl1 & Ha1).
    fold (run_epoch st a) in *.
    destruct (IH (S a) (run_epoch st a)) as (steps2 & Hh2 & Hl2 & Ha2).
    exists (steps1 ++ steps2). split_and!.
    + rewrite Hh2, Hh1. by rewrite <- app_assoc.
    + rewrite fmap_app, Hl1, Hl2, Ha1. csimpl. by rewrite batch_mean_losses_app.
    + rewrite Ha2, Ha1. csimpl. by rewrite arrays_after_app.
Qed.

Lemma chained_averages (sc : R) (hs : list Step) :
  (∀ e i m c, ¬ (e = 0%nat ∧ i = 0%nat) →
     update_moving_loss e i m c = sc * c + (1 - sc) * m) →
  ∀ m,
    chained m hs →
    Forall unseeded hs →
    step_moving_after <$> hs = averages_from sc m (step_curr_loss <$> hs)
    ∧ last_moving m hs = default m (last (averages_from sc m (step_curr_loss <$> hs))).
Proof.
  intros Hmix. induction hs as [|s hs IH]; intros m Hc Hun; [done|].
  destruct Hc as (_ & Ha & Hc). apply Forall_cons in Hun as [Hs Hun].
  rewrite Hmix in Ha by exact Hs.
  destruct (IH _ Hc Hun) as [IH1 IH2]. csimpl. rewrite <- Ha. split.
  - by rewrite IH1.
  - change (last_moving (step_moving_after s) hs
            = default m (last (step_moving_after s
                               :: averages_from sc (step_moving_after s)
                                    (step_curr_loss <$> hs)))).
    rewrite IH2, last_cons. by destruct (last _).
Qed.

(** A loop whose update seeds at batch 0 of epoch 0 and mixes with weight
    [sc] everywhere else. *)
Lemma train_seeded_then_averaged (sc : R) (epochs : nat) (h : heap)
    (b0 : list (list R * L)) (rest : list (list (list R * L))) :
  (∀ m c, update_moving_loss 0 0 m c = c) →
  (∀ e i m c, ¬ (e = 0%nat ∧ i = 0%nat) →
     update_moving_loss e i m c = sc * c + (1 - sc) * m) →
  (0 < epochs)%nat →
  epoch_batches 0%nat = b0 :: rest →
  seeded_then_averaged sc
    (batch_mean_losses h (concat (epoch_batches <$> seq 0 epochs)))
    (train forward_loss backward params learning_rate update_moving_loss
       epoch_batches epochs (initial h)).
Proof.
  intros Hseed Hmix Hepochs Hb0. unfold train.
  destruct (run_epochs_steps epochs 0%nat (initial h))
    as (steps & Hh & Hc & Hm & _ & Hun & Hhd).
  destruct (run_epochs_losses epochs 0%nat (initial h)) as (steps' & Hh' & Hl & _).
  simpl in Hh, Hc, Hm, Hh', Hl.
  assert (steps' = steps) as -> by congruence.
  destruct (Hhd Hepochs b0 rest Hb0) as (s & steps0 & -> & He & Hi & _).
  destruct Hc as (_ & Ha & Hc). rewrite He, Hi, Hseed in Ha. simpl in Hun.
  destruct (chained_averages sc steps0 Hmix _ Hc Hun) as [Hav Hlast].
  unfold seeded_then_averaged. rewrite Hh, Hm, <- Hl. csimpl. split_and!.
  - done.
  - by rewrite Hav, Ha.
  - change (last_moving (step_moving_after s) steps0
            = default 0 (last (step_curr_loss s
                               :: averages_from sc (step_curr_loss s)
                                    (step_curr_loss <$> steps0)))).
    rewrite Hlast, Ha, last_cons.
    by destruct (last (averages_from sc (step_curr_loss s) (step_curr_loss <$> steps0))).
Qed.

End LoopFacts.

Lemma softmax_update_seed (m c : R) : softmax_update_moving_loss 0 0 m c = c.
Proof. reflexivity. Qed.

Lemma softmax_update_mix (e i : nat) (m c : R) :
  ¬ (e = 0%nat ∧ i = 0%nat) →
  softmax_update_moving_loss e i m c
  = smoothing_constant * c + (1 - smoothing_constant) * m.
Proof.
  intros Hne. unfold softmax_update_moving_loss.
  destruct i, e; simpl; try lra. by destruct Hne.
Qed.

Lemma linreg_update_seed (m c : R) : linreg_update_moving_loss 0 0 m c = c.
Proof. reflexivity. Qed.

Lemma linreg_update_mix (e i : nat) (m c : R) :
  ¬ (e = 0%nat ∧ i = 0%nat) →
  linreg_update_moving_loss e i m c = 1 / 100 * c + (1 - 1 / 100) * m.
Proof.
  intros Hne. unfold linreg_update_moving_loss.
  destruct i, e; simpl; try lra. by destruct Hne.
Qed.

(** C4: in the softmax loop and in the linear-regression loop, whatever
    autograd computes and whatever batches the epochs have, the loop body
    runs once for every batch, epoch after epoch, on the mean of that batch's
    loss array; the first batch of the first epoch leaves [moving_loss] equal
    to its mean loss, and every later batch leaves [0.01] times its mean loss
    plus [0.99] times the [moving_loss] before it. *)
Theorem moving_loss_seeded_then_averaged :
  (∀ backward epoch_batches epochs h b0 rest,
     (0 < epochs)%nat →
     epoch_batches 0%nat = b0 :: rest →
     seeded_then_averaged smoothing_constant
       (batch_mean_losses softmax_forward_loss backward params learning_rate h
          (concat (epoch_batches <$> seq 0 epochs)))
       (softmax_training backward epoch_batches epochs h))
  ∧ (∀ backward epoch_batches epochs h b0 rest,
       (0 < epochs)%nat →
       epoch_batches 0%nat = b0 :: rest →
       seeded_then_averaged (1 / 100)
         (batch_mean_losses linreg_forward_loss backward [w; b] learning_rate h
            (concat (epoch_batches <$> seq 0 epochs)))
         (linreg_training backward epoch_batches epochs h)).
Proof.
  split; intros backward epoch_batches epochs h b0 rest Hepochs Hb0.
  - eapply train_seeded_then_averaged;
      eauto using softmax_update_seed, softmax_update_mix.
  - eapply train_seeded_then_averaged;
      eauto using linreg_update_seed, linreg_update_mix.
Qed.

(** Two epochs of two one-example batches, with an autograd that leaves the
    arrays alone. *)
Definition no_gradients (h : heap) (batch : list (list R * nat)) : heap := h.
Definition one_batch : list (list R * nat) := [([1], 0%nat)].
Definition same_batches (e : nat) : list (list (list R * nat)) :=
  [one_batch; one_batch].

(** [enumerate] starts again from 0 in every epoch. *)
Example epochs_and_indices :
  (λ s, (step_epoch s, step_index s))
    <$> history (softmax_training no_gradients same_batches 2 ∅)
  = [(0, 0); (0, 1); (1, 0); (1, 1)]%nat.
Proof. reflexivity. Qed.

(** A linear model that predicts 3 for the point [(1, 2)] labelled 5, with a
    gradient left in [w] that moves the prediction to 2 at the first update;
    the autograd stand-in writes nothing, and every epoch has this one
    point as its only batch. *)
Definition steep_start : heap :=
  {[ w := {| value := [[1]; [1]]; grad := [[1000]; [0]] |};
     b := {| value := [[0]]; grad := [[0]] |} ]}.
Definition stale_gradients (h : heap) (batch : list (list R * R)) : heap := h.
Definition point_5 : list (list R * R) := [([1; 2], 5)].
Definition point_5_each_epoch (e : nat) : list (list (list R * R)) := [point_5].

(** The two mean losses of that run are 4 and 9, and its moving averages 4
    and [0.01 * 9 + 0.99 * 4]: the first is the first loss, not an average
    with the initial 0. *)
Example losses_4_then_9 :
  batch_mean_losses linreg_forward_loss stale_gradients [w; b] learning_rate
    steep_start (concat (point_5_each_epoch <$> seq 0 2))
  = [4; 9]
  ∧ running_averages (1 / 100) [4; 9] = [4; 1 / 100 * 9 + (1 - 1 / 100) * 4].
Proof.
  assert (Hw : steep_start !! w
               = Some {| value := [[1]; [1]]; grad := [[1000]; [0]] |})
    by reflexivity.
  assert (Hb : steep_start !! b = Some {| value := [[0]]; grad := [[0]] |})
    by reflexivity.
  assert (Hw' : SGD [w; b] learning_rate steep_start !! w
                = Some {| value := [[1 - learning_rate * 1000];
                                    [1 - learning_rate * 0]];
                          grad := [[1000]; [0]] |}) by reflexivity.
  assert (Hb' : SGD [w; b] learning_rate steep_start !! b
                = Some {| value := [[0 - learning_rate * 0]]; grad := [[0]] |})
    by reflexivity.
  split; [|reflexivity].
  change (concat (point_5_each_epoch <$> seq 0 2)) with [point_5; point_5].
  cbn [batch_mean_losses].
  unfold stale_gradients, linreg_forward_loss, value_of, as_vector.
  rewrite Hw, Hb, Hw', Hb'.
  unfold square_loss, mean_all, mean, learning_rate. simpl. unfold inner. simpl.
  apply (f_equal2 cons); [lra|]. apply (f_equal2 cons); [lra|reflexivity].
Qed.

Lemma moving_loss_seeded_then_averaged_witness :
  (0 < 2)%nat
  ∧ point_5_each_epoch 0 = point_5 :: []
  ∧ seeded_then_averaged (1 / 100)
      (batch_mean_losses linreg_forward_loss stale_gradients [w; b] learning_rate
         steep_start (concat (point_5_each_epoch <$> seq 0 2)))
      (linreg_training stale_gradients point_5_each_epoch 2 steep_start)
  ∧ batch_mean_losses linreg_forward_loss stale_gradients [w; b] learning_rate
      steep_start (concat (point_5_each_epoch <$> seq 0 2))
    = [4; 9]
  ∧ running_averages (1 / 100) [4; 9] = [4; 1 / 100 * 9 + (1 - 1 / 100) * 4].
Proof.
  assert (H1 : (0 < 2)%nat) by lia.
  assert (H2 : point_5_each_epoch 0 = point_5 :: []) by reflexivity.
  split_and!; [exact H1|exact H2| |apply losses_4_then_9..].
  exact (proj2 moving_loss_seeded_then_averaged stale_gradients
           point_5_each_epoch 2%nat steep_start point_5 [] H1 H2).
Defined.

End TrainingFacts.

(** ** More on [softmax]: shape, range and order of the output *)

Module SoftmaxMore.
Import ND NDFacts Softmax SoftmaxFacts ArgmaxFacts.

Lemma softmax_row_le_1 (row : vector) : Forall (λ p, p <= 1) (softmax_row row).
Proof.
  destruct (decide (row = [])) as [->|Hne]; [constructor|].
  apply Forall_lookup. intros j p Hp.
  rewrite <- (softmax_row_sum row Hne). eapply lookup_le_sum; [|exact Hp].
  eapply Forall_impl; [apply softmax_row_pos|]. simpl. intros; lra.
Qed.

Lemma softmax_range (scores : matrix) :
  Forall (Forall (λ p, 0 < p <= 1)) (softmax scores).
Proof.
  rewrite softmax_by_rows. apply Forall_fmap, Forall_forall. intros row _. simpl.
  apply Forall_lookup. intros j p Hp. split.
  - exact (Forall_lookup_1 _ _ _ _ (softmax_row_pos row) Hp).
  - exact (Forall_lookup_1 _ _ _ _ (softmax_row_le_1 row) Hp).
Qed.

(** X1: the output of [softmax] has the shape of its input, and every entry
    of it is positive and at most 1, so its logarithm is a real number that
    is not positive. *)
Theorem softmax_shape_and_range (scores : matrix) :
  Forall2 (λ row out : vector,
             length out = length row ∧ Forall (λ p, 0 < p <= 1) out)
    scores (softmax scores).
Proof.
  rewrite softmax_by_rows. apply Forall2_fmap_r, Forall_Forall2_diag.
  apply Forall_forall. intros row _. split.
  - unfold softmax_row. by rewrite length_fmap.
  - pose proof (softmax_row_pos row) as Hpos.
    pose proof (softmax_row_le_1 row) as Hle.
    apply Forall_lookup. intros j p Hp. split.
    + exact (Forall_lookup_1 _ _ _ _ Hpos Hp).
    + exact (Forall_lookup_1 _ _ _ _ Hle Hp).
Qed.

(** A strictly increasing map of the entries moves no maximum. *)
Lemma argmax_from_increasing (f : R → R) (row : vector) :
  (∀ x y, x < y → f x < f y) →
  ∀ (best : R) (besti i : nat),
    argmax_from (f best) besti i (f <$> row) = argmax_from best besti i row.
Proof.
  intros Hf. induction row as [|x xs IH]; intros best besti i; [done|].
  csimpl. destruct (Rlt_dec best x) as [Hlt|Hge], (Rlt_dec (f best) (f x)) as [Hlt'|Hge'].
  - apply IH.
  - destruct Hge'. by apply Hf.
  - destruct (Rtotal_order x best) as [H|[H|H]].
    + specialize (Hf _ _ H). lra.
    + subst. lra.
    + lra.
  - apply IH.
Qed.

Lemma argmax_row_increasing (f : R → R) (row : vector) :
  (∀ x y, x < y → f x < f y) → argmax_row (f <$> row) = argmax_row row.
Proof.
  intros Hf. destruct row as [|x xs]; [done|]. csimpl.
  by apply argmax_from_increasing.
Qed.

Lemma argmax_softmax_row (row : vector) :
  argmax_row (softmax_row row) = argmax_row row.
Proof.
  destruct (decide (row = [])) as [->|Hne]; [done|].
  unfold softmax_row. apply argmax_row_increasing. intros x y Hxy.
  pose proof (sum_exp_pos row Hne). pose proof (exp_increasing x y Hxy).
  unfold Rdiv. apply Rmult_lt_compat_r; [|done]. by apply Rinv_0_lt_compat.
Qed.



End SoftmaxMore.

(** ** The forward pass of the softmax notebook *)

Module ForwardFacts.
Import ND NDFacts Softmax SoftmaxFacts Model AccuracyFacts.

Lemma scores_of_length (W : matrix) (b x : vector) :
  length (scores_of W b x) = (width W `min` length b)%nat.
Proof. unfold scores_of. by rewrite length_zip_with, length_fmap, length_seq. Qed.

(** X3: the forward output of a batch put together from two batches is the
    two outputs put together, and row [i] of the output of any batch is the
    output for example [i] alone: the number [softmax] takes from the whole
    batch leaves no trace in the result. *)
Theorem net_batch_independent (W : matrix) (b : vector) :
  (∀ X1 X2 : matrix, net W b (X1 ++ X2) = net W b X1 ++ net W b X2)
  ∧ (∀ (X : matrix) (i : nat) (x : vector),
       X !! i = Some x → net W b X !! i = head (net W b [x])).
Proof.
  split.
  - intros X1 X2. rewrite !net_by_rows. apply fmap_app.
  - intros X i x Hx. rewrite !net_by_rows, list_lookup_fmap, Hx. done.
Qed.

(** X4: on arrays of the shapes the forward pass is written for ([W] with
    at least one column and all rows of one length, one entry of [b] per
    column of [W], one feature of every example per row of [W]), the forward
    output has one row per example, and each row has one entry per column of
    [W], all positive and summing to 1. *)
Theorem net_rows_are_distributions (W : matrix) (b : vector) (X : matrix) :
  (0 < width W)%nat →
  Forall (λ r : vector, length r = width W) W →
  length b = width W →
  Forall (λ x : vector, length x = length W) X →
  length (net W b X) = length X
  ∧ Forall (λ out : vector,
              length out = width W
              ∧ sum out = 1
              ∧ Forall (λ p, 0 < p) out)
      (net W b X).
Proof.
  intros HW _ Hb _. rewrite net_by_rows. split; [by rewrite length_fmap|].
  apply Forall_fmap, Forall_forall. intros x _. simpl.
  assert (Hlen : length (scores_of W b x) = width W).
  { rewrite scores_of_length, Hb. lia. }
  split_and!.
  - unfold softmax_row. by rewrite length_fmap.
  - apply softmax_row_sum. intros Hnil. rewrite Hnil in Hlen. simpl in Hlen. lia.
  - apply softmax_row_pos.
Qed.

Definition W_two_outputs : matrix := [[1; 0]; [0; 1]].
Definition b_two_outputs : vector := [0; 1].

Lemma net_rows_are_distributions_witness :
  (0 < width W_two_outputs)%nat
  ∧ Forall (λ r : vector, length r = width W_two_outputs) W_two_outputs
  ∧ length b_two_outputs = width W_two_outputs
  ∧ Forall (λ x : vector, length x = length W_two_outputs) [[1; 2]; [3; 4]]
  ∧ length (net W_two_outputs b_two_outputs [[1; 2]; [3; 4]]) = 2%nat
  ∧ Forall (λ out : vector,
              length out = width W_two_outputs
              ∧ sum out = 1
              ∧ Forall (λ p, 0 < p) out)
      (net W_two_outputs b_two_outputs [[1; 2]; [3; 4]]).
Proof.
  assert (H1 : (0 < width W_two_outputs)%nat) by (unfold width, W_two_outputs; simpl; lia).
  assert (H2 : Forall (λ r : vector, length r = width W_two_outputs) W_two_outputs)
    by (repeat (apply Forall_cons; split; [reflexivity|]); apply Forall_nil_2).
  assert (H3 : length b_two_outputs = width W_two_outputs) by reflexivity.
  assert (H4 : Forall (λ x : vector, length x = length W_two_outputs) [[1; 2]; [3; 4]])
    by (repeat (apply Forall_cons; split; [reflexivity|]); apply Forall_nil_2).
  split_and!; [exact H1|exact H2|exact H3|exact H4|..];
    apply (net_rows_are_distributions W_two_outputs b_two_outputs
             [[1; 2]; [3; 4]] H1 H2 H3 H4).
Defined.

Lemma zip_plus_shift (c : R) (l b : vector) :
  zip_with Rplus l ((λ v, v + c) <$> b) = (λ s, s + c) <$> zip_with Rplus l b.
Proof.
  revert b. induction l as [|x l IH]; intros [|y b]; csimpl; [done..|].
  rewrite IH. f_equal. lra.
Qed.

(** X5: adding one and the same number to every entry of the bias [b]
    changes nothing in the forward output. *)
Theorem net_bias_shift_invariant (W : matrix) (b : vector) (c : R) (X : matrix) :
  net W ((λ v, v + c) <$> b) X = net W b X.
Proof.
  rewrite !net_by_rows. apply list_fmap_ext. intros _ x _.
  unfold scores_of. rewrite zip_plus_shift. apply softmax_row_add.
Qed.

End ForwardFacts.

(** ** More on the losses *)

Module LossMore.
Import ND NDFacts Softmax SoftmaxFacts SoftmaxMore Model LossFacts OwnLabel Optimizer
  Training.

(** X6: against one-hot labels, when row [i] of [yhat] holds positive
    numbers only, so that every logarithm taken of it is a number, the loss of
    example [i] is minus the logarithm of the probability [p] that the row
    gives to the label of example [i]; no other entry of the row counts. *)
Theorem cross_entropy_one_hot (yhat : matrix) (labels : list nat) (depth i : nat)
    (row : vector) (l : nat) (p : R) :
  yhat !! i = Some row →
  labels !! i = Some l →
  length row = depth →
  Forall (λ q, 0 < q) row →
  row !! l = Some p →
  0 < p ∧ cross_entropy yhat (one_hot labels depth) !! i = Some (- ln p).
Proof.
  intros Hrow Hl Hlen Hpos Hp.
  split; [exact (Forall_lookup_1 _ _ _ _ Hpos Hp)|].
  assert (Hoh : one_hot labels depth !! i = Some (one_hot_row depth l)).
  { unfold one_hot. by rewrite list_lookup_fmap, Hl. }
  rewrite (cross_entropy_lookup _ _ _ _ _ Hrow Hoh). do 2 f_equal.
  rewrite <- Hlen, <- (length_fmap ln row), sum_one_hot_mul.
  - by rewrite list_lookup_fmap, Hp.
  - rewrite length_fmap. by eapply lookup_lt_Some.
Qed.

Lemma cross_entropy_one_hot_witness :
  [[1 / 4; 3 / 4]] !! 0%nat = Some [1 / 4; 3 / 4]
  ∧ [1%nat] !! 0%nat = Some 1%nat
  ∧ length [1 / 4; 3 / 4] = 2%nat
  ∧ Forall (λ q, 0 < q) [1 / 4; 3 / 4]
  ∧ [1 / 4; 3 / 4] !! 1%nat = Some (3 / 4)
  ∧ 0 < 3 / 4
  ∧ cross_entropy [[1 / 4; 3 / 4]] (one_hot [1%nat] 2) !! 0%nat
    = Some (- ln (3 / 4)).
Proof.
  assert (Hpos : Forall (λ q, 0 < q) [1 / 4; 3 / 4])
    by (repeat (apply Forall_cons; split; [lra|]); apply Forall_nil_2).
  split_and!; [reflexivity..|exact Hpos|reflexivity|lra|].
  apply (cross_entropy_one_hot [[1 / 4; 3 / 4]] [1%nat] 2 0 [1 / 4; 3 / 4] 1
           (3 / 4)); [reflexivity..|exact Hpos|reflexivity].
Defined.

Lemma sum_nonpos (v : vector) : Forall (λ x, x <= 0) v → sum v <= 0.
Proof. induction 1; simpl; lra. Qed.

Lemma weighted_logs_nonpos (y out : vector) :
  Forall (λ t, 0 <= t) y → Forall (λ p, 0 < p <= 1) out →
  sum (zip_with Rmult y (ln <$> out)) <= 0.
Proof.
  intros Hy Hout. apply sum_nonpos, Forall_lookup. intros j t Ht.
  apply lookup_zip_with_Some in Ht as (a & c & -> & Ha & Hc).
  rewrite list_lookup_fmap in Hc.
  destruct (out !! j) as [p|] eqn:Hp; [|done]. injection Hc as <-.
  pose proof (Forall_lookup_1 _ _ _ _ Hy Ha) as Ha0.
  pose proof (Forall_lookup_1 _ _ _ _ Hout Hp) as [Hp0 Hp1]. simpl in *.
  assert (ln p <= 0).
  { destruct Hp1 as [Hp1| ->]; [|rewrite ln_1; lra].
    pose proof (ln_increasing _ _ Hp0 Hp1) as Hln. rewrite ln_1 in Hln. lra. }
  nra.
Qed.

Lemma cross_entropy_nonneg (yhat y : matrix) :
  Forall (Forall (λ t, 0 <= t)) y →
  Forall (Forall (λ p, 0 < p <= 1)) yhat →
  Forall (λ c, 0 <= c) (cross_entropy yhat y).
Proof.
  intros Hy Hyhat. apply Forall_lookup. intros i c Hc.
  unfold cross_entropy, neg, sum_rows, mul, ND.log in Hc.
  rewrite !list_lookup_fmap, lookup_zip_with, list_lookup_fmap in Hc.
  destruct (y !! i) as [y_i|] eqn:Hyi; [|done].
  destruct (yhat !! i) as [out|] eqn:Houti; [|done].
  injection Hc as <-.
  pose proof (weighted_logs_nonpos y_i out
                (Forall_lookup_1 _ _ _ _ Hy Hyi)
                (Forall_lookup_1 _ _ _ _ Hyhat Houti)).
  lra.
Qed.

Lemma one_hot_nonneg (labels : list nat) (depth : nat) :
  Forall (Forall (λ t, 0 <= t)) (one_hot labels depth).
Proof.
  unfold one_hot, one_hot_row. apply Forall_fmap, Forall_forall. intros l _.
  apply Forall_fmap, Forall_forall. intros j _. simpl.
  destruct (j =? l)%nat; lra.
Qed.

Lemma softmax_forward_loss_nonneg (h : heap) (batch : list (list R * nat)) :
  Forall (λ c, 0 <= c) (softmax_forward_loss h batch).
Proof.
  unfold softmax_forward_loss, net.
  apply cross_entropy_nonneg; [apply one_hot_nonneg|apply softmax_range].
Qed.

(** X7: whatever the arrays hold, the loss array the softmax training loop
    builds for a batch has one entry per example of the batch, and no entry
    is negative. *)
Theorem softmax_loss_per_example_nonneg (h : heap) (batch : list (list R * nat)) :
  length (softmax_forward_loss h batch) = length batch
  ∧ Forall (λ c, 0 <= c) (softmax_forward_loss h batch).
Proof.
  split; [|apply softmax_forward_loss_nonneg].
  unfold softmax_forward_loss. rewrite cross_entropy_length.
  - unfold net. rewrite softmax_by_rows. unfold add_row, dot, batch_data.
    by rewrite !length_fmap.
  - unfold net. rewrite softmax_by_rows. unfold one_hot, add_row, dot, batch_data, batch_label.
    by rewrite !length_fmap.
Qed.

End LossMore.

(** ** The linear-regression notebook: data, model and loss *)

Module LinearRegression.
Import ND NDFacts Model LossFacts.

(** [[
y = 2 * X[:, 0] - 3.4 * X[:, 1] + 4.2 + .01 * nd.random_normal(shape=(num_examples,))
]]
    with [noise] the array the random generator returns. *)
Definition synthetic_labels (X : matrix) (noise : vector) : vector :=
  zip_with Rplus
    ((λ t, t + 42 / 10)
       <$> zip_with Rminus (Rmult 2 <$> column 0 X) (Rmult (34 / 10) <$> column 1 X))
    (Rmult (1 / 100) <$> noise).

(** The weights and the offset of the labelling function, as arrays of the
    shapes of [w] and [b]. *)
Definition true_w : matrix := [[2]; [- (34 / 10)]].
Definition true_b : vector := [42 / 10].

(** [label.reshape((-1, 1))] *)
Definition as_column (v : vector) : matrix := (λ y : R, [y]) <$> v.

Lemma sum_zero_iff (v : vector) :
  Forall (λ x, 0 <= x) v → sum v = 0 ↔ Forall (λ x, x = 0) v.
Proof.
  induction 1 as [|x v Hx Hv IH]; simpl.
  - split; [constructor|done].
  - pose proof (sum_nonneg v Hv). rewrite Forall_cons. split.
    + intros Hs. split; [lra|]. apply IH. lra.
    + intros [-> Hz]. apply IH in Hz. lra.
Qed.

Lemma mean_nonneg (v : vector) : Forall (λ x, 0 <= x) v → 0 <= mean v.
Proof.
  intros Hv. unfold mean. pose proof (sum_nonneg v Hv).
  destruct v as [|x v]; [simpl; unfold Rdiv; lra|].
  apply Rmult_le_pos; [done|]. apply Rlt_le, Rinv_0_lt_compat, lt_0_INR.
  simpl; lia.
Qed.

Lemma mean_zero_iff (v : vector) :
  Forall (λ x, 0 <= x) v → mean v = 0 ↔ Forall (λ x, x = 0) v.
Proof.
  intros Hv. rewrite <- (sum_zero_iff v Hv). unfold mean.
  destruct v as [|x v]; [simpl; unfold Rdiv; split; intros; lra|].
  assert (0 < INR (length (x :: v))) by (apply lt_0_INR; simpl; lia).
  split.
  - intros Hm. apply (Rmult_eq_compat_r (INR (length (x :: v)))) in Hm.
    unfold Rdiv in Hm. rewrite Rmult_assoc, Rinv_l in Hm by lra. lra.
  - intros ->. unfold Rdiv. lra.
Qed.

Lemma squares_nonneg (a : matrix) : Forall (λ x, 0 <= x) (concat (square a)).
Proof.
  unfold square. induction a as [|row a IH]; csimpl; [constructor|].
  apply Forall_app. split; [|exact IH].
  apply Forall_fmap, Forall_forall. intros x _. simpl. nra.
Qed.

Lemma row_squares_zero_iff (r r' : vector) :
  length r = length r' →
  Forall (λ x, x = 0) ((λ x, x * x) <$> zip_with Rminus r r') ↔ r = r'.
Proof.
  revert r'. induction r as [|x r IH]; intros [|x' r'] Hlen; simpl in Hlen; try lia.
  - split; [done|constructor].
  - csimpl. rewrite Forall_cons, IH by lia. split.
    + intros [Hx ->]. f_equal. nra.
    + intros [= -> ->]. split; [lra|done].
Qed.

Lemma squares_zero_iff (yhat y : matrix) :
  same_shape yhat y →
  Forall (λ x, x = 0) (concat (square (sub yhat y))) ↔ yhat = y.
Proof.
  unfold same_shape, square, sub.
  induction 1 as [|r r' yhat y Hlen Hrest IH]; csimpl.
  - split; [done|constructor].
  - rewrite Forall_app, IH, row_squares_zero_iff by done. split.
    + by intros [-> ->].
    + by intros [= -> ->].
Qed.

(** X8: for predictions and labels of one shape, [square_loss] is a
    one-element array whose entry is not negative, and is 0 exactly when every
    prediction equals its label. *)
Theorem square_loss_zero_iff_equal (yhat y : matrix) :
  same_shape yhat y →
  ∃ m, square_loss yhat y = [m] ∧ 0 <= m ∧ (m = 0 ↔ yhat = y).
Proof.
  intros Hshape. eexists. split; [reflexivity|].
  pose proof (squares_nonneg (sub yhat y)) as Hsq. split.
  - by apply mean_nonneg.
  - by rewrite mean_zero_iff, squares_zero_iff.
Qed.

Lemma square_loss_zero_iff_equal_witness :
  same_shape [[1]; [2]] [[1]; [3]]
  ∧ ∃ m, square_loss [[1]; [2]] [[1]; [3]] = [m]
         ∧ 0 <= m ∧ (m = 0 ↔ [[1]; [2]] = [[1]; [3]]).
Proof.
  assert (H : same_shape [[1]; [2]] [[1]; [3]]).
  { repeat (apply Forall2_cons; split; [reflexivity|]). apply Forall2_nil_2. }
  split; [exact H|]. exact (square_loss_zero_iff_equal [[1]; [2]] [[1]; [3]] H).
Defined.

Lemma residuals_at_true_parameters (X : matrix) :
  Forall (λ x : vector, length x = 2%nat) X →
  ∀ noise : vector,
    length noise = length X →
    concat (square (sub (linear_net true_w true_b X)
                        (as_column (synthetic_labels X noise))))
    = (λ n, (1 / 100 * n) * (1 / 100 * n)) <$> noise.
Proof.
  unfold as_column, synthetic_labels, linear_net, square, sub, add_row, dot, column.
  induction 1 as [|x X Hx HX IH]; intros [|n noise] Hlen; simpl in Hlen; try lia.
  - done.
  - destruct x as [|x0 [|x1 [|? ?]]]; try done. csimpl.
    rewrite IH by lia. f_equal. unfold inner. simpl. lra.
Qed.

(** X9: on data labelled by the notebook's generating line, the linear model
    holding the generating weights and offset has a squared loss equal to the
    mean of the squared noise terms [.01 * noise[i]]: the model family
    contains the labelling function, and what is left is the noise. *)
Theorem square_loss_at_true_parameters (X : matrix) (noise : vector) :
  Forall (λ x : vector, length x = 2%nat) X →
  length noise = length X →
  square_loss (linear_net true_w true_b X) (as_column (synthetic_labels X noise))
  = [mean ((λ n, (1 / 100 * n) * (1 / 100 * n)) <$> noise)].
Proof.
  intros HX Hlen. unfold square_loss, mean_all.
  by rewrite residuals_at_true_parameters.
Qed.

Lemma square_loss_at_true_parameters_witness :
  Forall (λ x : vector, length x = 2%nat) [[1; 2]; [0; 1]]
  ∧ length [3; -1] = length [[1; 2]; [0; 1]]
  ∧ square_loss (linear_net true_w true_b [[1; 2]; [0; 1]])
      (as_column (synthetic_labels [[1; 2]; [0; 1]] [3; -1]))
    = [mean ((λ n, (1 / 100 * n) * (1 / 100 * n)) <$> [3; -1])].
Proof.
  assert (H1 : Forall (λ x : vector, length x = 2%nat) [[1; 2]; [0; 1]]).
  { repeat (apply Forall_cons; split; [reflexivity|]). apply Forall_nil_2. }
  assert (H2 : length [3; -1] = length [[1; 2]; [0; 1]]) by reflexivity.
  split_and!; [exact H1|exact H2|].
  exact (square_loss_at_true_parameters [[1; 2]; [0; 1]] [3; -1] H1 H2).
Defined.

End LinearRegression.

(** ** More on [SGD] *)

Module OptimizerMore.
Import ND NDFacts LossFacts Optimizer.

(** The gradient buffer has the shape of the value buffer, as [attach_grad]
    allocates it. *)
Definition well_shaped (p : NDArray) : Prop := same_shape (value p) (grad p).

Lemma same_shape_sub_scale (lr : R) (v g : matrix) :
  same_shape v g → same_shape (sub v (scale lr g)) v.
Proof.
  unfold same_shape, sub, scale.
  induction 1 as [|r r' v g Hlen Hrest IH]; csimpl; [constructor|].
  constructor; [|exact IH]. rewrite length_zip_with, length_fmap. lia.
Qed.

Lemma same_shape_trans (a c d : matrix) :
  same_shape a c → same_shape c d → same_shape a d.
Proof.
  unfold same_shape. intros Hac. revert d.
  induction Hac as [|r r' a c Hlen Hrest IH]; intros d Hcd.
  - by inversion Hcd.
  - inversion Hcd as [|? r'' ? d' Hlen' Hrest']; subst.
    constructor; [congruence|by apply IH].
Qed.

Lemma same_shape_refl (a : matrix) : same_shape a a.
Proof. unfold same_shape. by apply Forall_Forall2_diag, Forall_forall. Qed.

Lemma sgd_update_shape (lr : R) (p : NDArray) :
  well_shaped p →
  well_shaped (sgd_update lr p) ∧ same_shape (value (sgd_update lr p)) (value p).
Proof.
  intros Hp. pose proof (same_shape_sub_scale lr _ _ Hp) as Hs.
  split; [|exact Hs]. unfold well_shaped. simpl.
  eapply same_shape_trans; [exact Hs|exact Hp].
Qed.

(** What one call of [SGD] keeps, relative to the heap [h0] before it. *)
Definition shapes_kept (h0 h : heap) : Prop :=
  ∀ r p, h !! r = Some p →
    well_shaped p ∧ ∃ p0, h0 !! r = Some p0 ∧ same_shape (value p) (value p0).

Lemma SGD_shapes_kept (params : list ref) (lr : R) (h0 : heap) :
  ∀ h, shapes_kept h0 h → shapes_kept h0 (SGD params lr h).
Proof.
  induction params as [|q params IH]; intros h Hinv; [done|].
  rewrite SGD_cons. apply IH. intros r p Hp.
  destruct (decide (q = r)) as [->|Hne].
  - rewrite lookup_alter_eq in Hp.
    destruct (h !! r) as [p1|] eqn:Hr; [|done]. injection Hp as <-.
    destruct (Hinv r p1 Hr) as (Hw & p0 & Hp0 & Hs).
    destruct (sgd_update_shape lr p1 Hw) as [Hw' Hs'].
    split; [done|]. exists p0. split; [done|].
    by eapply same_shape_trans.
  - rewrite lookup_alter_ne in Hp by done. by apply Hinv.
Qed.

(** X10: if every array of the heap has a gradient buffer of the shape of its
    value buffer, then after [SGD] every array still has, and its value
    buffer has the shape it had before the call: an update never resizes a
    parameter, however often the parameter is listed. *)
Theorem SGD_keeps_shapes (params : list ref) (lr : R) (h : heap) :
  (∀ r p, h !! r = Some p → well_shaped p) →
  ∀ r p', SGD params lr h !! r = Some p' →
    well_shaped p'
    ∧ ∃ p, h !! r = Some p ∧ same_shape (value p') (value p).
Proof.
  intros Hh. apply SGD_shapes_kept. intros r p Hp.
  split; [by eapply Hh|]. exists p. split; [done|apply same_shape_refl].
Qed.

Lemma two_arrays_well_shaped :
  ∀ r p, two_arrays !! r = Some p → well_shaped p.
Proof.
  intros r p Hp. unfold two_arrays in Hp.
  apply lookup_insert_Some in Hp as [[_ <-]|[_ Hp]].
  - repeat (apply Forall2_cons; split; [reflexivity|]). apply Forall2_nil_2.
  - apply lookup_singleton_Some in Hp as [_ <-].
    repeat (apply Forall2_cons; split; [reflexivity|]). apply Forall2_nil_2.
Qed.

Lemma SGD_keeps_shapes_witness :
  (∀ r p, two_arrays !! r = Some p → well_shaped p)
  ∧ SGD [0; 1; 0]%nat (1 / 10) two_arrays !! 0%nat
    = Some {| value := [[1 - 1 / 10 * 3 - 1 / 10 * 3; 2 - 1 / 10 * 4 - 1 / 10 * 4]];
              grad := [[3; 4]] |}
  ∧ well_shaped
      {| value := [[1 - 1 / 10 * 3 - 1 / 10 * 3; 2 - 1 / 10 * 4 - 1 / 10 * 4]];
         grad := [[3; 4]] |}
  ∧ ∃ p, two_arrays !! 0%nat = Some p
         ∧ same_shape [[1 - 1 / 10 * 3 - 1 / 10 * 3; 2 - 1 / 10 * 4 - 1 / 10 * 4]]
             (value p).
Proof.
  assert (H2 : SGD [0; 1; 0]%nat (1 / 10) two_arrays !! 0%nat
    = Some {| value := [[1 - 1 / 10 * 3 - 1 / 10 * 3; 2 - 1 / 10 * 4 - 1 / 10 * 4]];
              grad := [[3; 4]] |}) by reflexivity.
  split_and!; [exact two_arrays_well_shaped|exact H2|..];
    apply (SGD_keeps_shapes [0; 1; 0]%nat (1 / 10) two_arrays
             two_arrays_well_shaped 0%nat _ H2).
Defined.

Lemma row_sub_scale_zero (lr : R) (r g : vector) :
  length r = length g →
  lr = 0 ∨ Forall (λ d, d = 0) g →
  zip_with Rminus r (Rmult lr <$> g) = r.
Proof.
  revert g. induction r as [|x r IH]; intros [|d g] Hlen Hz; simpl in Hlen; try lia.
  - done.
  - csimpl. rewrite IH; [|lia|].
    + f_equal. destruct Hz as [->|Hz]; [lra|].
      apply Forall_cons in Hz as [-> _]. lra.
    + destruct Hz as [->|Hz]; [by left|right]. by apply Forall_cons in Hz as [_ ?].
Qed.

Lemma sub_scale_zero (lr : R) (v g : matrix) :
  same_shape v g →
  lr = 0 ∨ Forall (Forall (λ d, d = 0)) g →
  sub v (scale lr g) = v.
Proof.
  unfold same_shape, sub, scale.
  induction 1 as [|r r' v g Hlen Hrest IH]; intros Hz; csimpl; [done|].
  rewrite IH, row_sub_scale_zero; [done|done| |].
  - destruct Hz as [->|Hz]; [by left|right]. by apply Forall_cons in Hz as [? _].
  - destruct Hz as [->|Hz]; [by left|right]. by apply Forall_cons in Hz as [_ ?].
Qed.

(** X11: when the learning rate is 0, or every gradient of a listed
    parameter is zero throughout (gradient buffers having the shape of the
    values), [SGD] leaves the whole heap as it is. *)
Theorem SGD_zero_step (params : list ref) (lr : R) (h : heap) :
  (∀ r p, r ∈ params → h !! r = Some p →
     well_shaped p ∧ (lr = 0 ∨ Forall (Forall (λ d, d = 0)) (grad p))) →
  SGD params lr h = h.
Proof.
  induction params as [|q params IH]; intros Hz; [done|].
  rewrite SGD_cons.
  assert (Hq : alter (sgd_update lr) q h = h).
  { apply alter_id. intros p Hp.
    destruct (Hz q p (list_elem_of_here _ _) Hp) as [Hw Hzero].
    destruct p as [v g]. unfold sgd_update. simpl in *. f_equal.
    by apply sub_scale_zero. }
  rewrite Hq. apply IH. intros r p Hr. apply Hz. by apply list_elem_of_further.
Qed.

(** A value with a gradient that is zero throughout. *)
Definition at_rest : heap := {[ 0%nat := {| value := [[1; 2]]; grad := [[0; 0]] |} ]}.

Lemma SGD_zero_step_witness :
  (∀ r p, r ∈ [0%nat] → at_rest !! r = Some p →
     well_shaped p ∧ (1 / 10 = 0 ∨ Forall (Forall (λ d, d = 0)) (grad p)))
  ∧ SGD [0%nat] (1 / 10) at_rest = at_rest.
Proof.
  assert (H : ∀ r p, r ∈ [0%nat] → at_rest !! r = Some p →
     well_shaped p ∧ (1 / 10 = 0 ∨ Forall (Forall (λ d, d = 0)) (grad p))).
  { intros r p _ Hp. unfold at_rest in Hp.
    apply lookup_singleton_Some in Hp as [_ <-]. split.
    - repeat (apply Forall2_cons; split; [reflexivity|]). apply Forall2_nil_2.
    - right. simpl. repeat (apply Forall_cons; split; [|apply Forall_nil_2]).
      repeat (apply Forall_cons; split; [reflexivity|]). apply Forall_nil_2. }
  split; [exact H|]. exact (SGD_zero_step [0%nat] (1 / 10) at_rest H).
Defined.

(** How often [r] is listed in [params]. *)
Definition times_listed (r : ref) (params : list ref) : nat :=
  length (filter (λ q, q = r) params).

Lemma SGD_lookup_iter (params : list ref) (lr : R) (r : ref) :
  ∀ h : heap,
    SGD params lr h !! r
    = Nat.iter (times_listed r params) (sgd_update lr) <$> h !! r.
Proof.
  unfold times_listed.
  induction params as [|q params IH]; intros h.
  - simpl. by destruct (h !! r).
  - rewrite SGD_cons, IH, filter_cons. destruct (decide (q = r)) as [->|Hne].
    + rewrite lookup_alter_eq. destruct (h !! r) as [p|]; [|done]. simpl.
      f_equal. exact (eq_sym (Nat.iter_succ_r _ _ _)).
    + by rewrite lookup_alter_ne.
Qed.

Lemma iter_sgd_update_entry (lr : R) (k : nat) :
  ∀ (p : NDArray) (i j : nat) (x d : R),
    entry (value p) i j = Some x →
    entry (grad p) i j = Some d →
    grad (Nat.iter k (sgd_update lr) p) = grad p
    ∧ entry (value (Nat.iter k (sgd_update lr) p)) i j = Some (x - INR k * lr * d).
Proof.
  induction k as [|k IH]; intros p i j x d Hx Hd.
  - simpl. split; [done|]. rewrite Hx. f_equal. lra.
  - rewrite Nat.iter_succ.
    destruct (IH p i j x d Hx Hd) as [Hg Hv]. split; [by simpl|].
    unfold sgd_update at 1. simpl value.
    rewrite (entry_sub_scale lr _ _ i j _ d Hv) by (by rewrite Hg).
    f_equal. rewrite S_INR. lra.
Qed.

Lemma iter_sgd_update_grad (lr : R) (k : nat) (p : NDArray) :
  grad (Nat.iter k (sgd_update lr) p) = grad p.
Proof. induction k as [|k IH]; [done|]. by rewrite Nat.iter_succ. Qed.

(** X12: a parameter listed [k] times in [params] is updated [k] times by
    one call: its gradient buffer is unchanged, and each entry of its value
    ends at the entry before the call minus [k * lr] times the gradient
    entry.  Listed once this is the plain step, not listed at all the value
    stays. *)
Theorem SGD_updates_once_per_listing (params : list ref) (lr : R) (h : heap)
    (r : ref) (p : NDArray) :
  h !! r = Some p →
  ∃ p',
    SGD params lr h !! r = Some p'
    ∧ grad p' = grad p
    ∧ ∀ i j x d,
        entry (value p) i j = Some x →
        entry (grad p) i j = Some d →
        entry (value p') i j
        = Some (x - INR (times_listed r params) * lr * d).
Proof.
  intros Hp. exists (Nat.iter (times_listed r params) (sgd_update lr) p).
  rewrite SGD_lookup_iter, Hp. split_and!; [done|apply iter_sgd_update_grad|].
  intros i j x d Hx Hd. by apply iter_sgd_update_entry.
Qed.

Lemma SGD_updates_once_per_listing_witness :
  two_arrays !! 0%nat = Some {| value := [[1; 2]]; grad := [[3; 4]] |}
  ∧ ∃ p',
      SGD [0; 1; 0]%nat (1 / 10) two_arrays !! 0%nat = Some p'
      ∧ grad p' = [[3; 4]]
      ∧ ∀ i j x d,
          entry [[1; 2]] i j = Some x →
          entry [[3; 4]] i j = Some d →
          entry (value p') i j
          = Some (x - INR (times_listed 0 [0; 1; 0]%nat) * (1 / 10) * d).
Proof.
  assert (H : two_arrays !! 0%nat = Some {| value := [[1; 2]]; grad := [[3; 4]] |})
    by reflexivity.
  split; [exact H|].
  exact (SGD_updates_once_per_listing [0; 1; 0]%nat (1 / 10) two_arrays 0%nat _ H).
Defined.

Lemma row_sub_scale_twice (l1 l2 : R) (r g : vector) :
  zip_with Rminus (zip_with Rminus r (Rmult l1 <$> g)) (Rmult l2 <$> g)
  = zip_with Rminus r (Rmult (l1 + l2) <$> g).
Proof.
  revert g. induction r as [|x r IH]; intros [|d g]; csimpl; [done..|].
  rewrite IH. f_equal. lra.
Qed.

Lemma sgd_update_twice (l1 l2 : R) (p : NDArray) :
  sgd_update l2 (sgd_update l1 p) = sgd_update (l1 + l2) p.
Proof.
  destruct p as [v g]. unfold sgd_update. simpl. f_equal.
  unfold sub, scale. revert g.
  induction v as [|r v IH]; intros [|r' g]; csimpl; [done..|].
  by rewrite IH, row_sub_scale_twice.
Qed.

Lemma sgd_update_commute (l1 l2 : R) (p : NDArray) :
  sgd_update l1 (sgd_update l2 p) = sgd_update l2 (sgd_update l1 p).
Proof. rewrite !sgd_update_twice. f_equal. lra. Qed.

Lemma iter_sgd_update_commute (l1 l2 : R) (k : nat) (p : NDArray) :
  Nat.iter k (sgd_update l2) (sgd_update l1 p)
  = sgd_update l1 (Nat.iter k (sgd_update l2) p).
Proof.
  induction k as [|k IH]; [done|]. simpl. rewrite IH. apply sgd_update_commute.
Qed.

Lemma iter_sgd_update_twice (l1 l2 : R) (k : nat) (p : NDArray) :
  Nat.iter k (sgd_update l2) (Nat.iter k (sgd_update l1) p)
  = Nat.iter k (sgd_update (l1 + l2)) p.
Proof.
  induction k as [|k IH]; [done|]. simpl.
  by rewrite iter_sgd_update_commute, IH, sgd_update_twice.
Qed.

(** X13: two calls of [SGD] on the same list with the gradients left as
    they are amount to one call with the sum of the two learning rates: the
    update keeps no state of its own between calls. *)
Theorem SGD_twice_adds_learning_rates (params : list ref) (l1 l2 : R) (h : heap) :
  SGD params l2 (SGD params l1 h) = SGD params (l1 + l2) h.
Proof.
  apply map_eq. intros r. rewrite !SGD_lookup_iter.
  destruct (h !! r) as [p|]; [|done]. simpl. f_equal.
  apply iter_sgd_update_twice.
Qed.

End OptimizerMore.

(** ** More on [evaluate_accuracy] *)

Module AccuracyMore.
Import ND NDFacts Model AccuracyFacts.

Lemma hits_bounds (u v : list nat) :
  0 <= sum (eq_elemwise u v) <= INR (length v).
Proof.
  unfold eq_elemwise. revert v.
  induction u as [|p u IH]; intros [|l v]; simpl length; rewrite ?S_INR; csimpl.
  - lra.
  - pose proof (pos_INR (length v)). lra.
  - lra.
  - specialize (IH v). destruct (p =? l)%nat; lra.
Qed.

(** The two accumulators after a pass, whatever [net] returns. *)
Lemma accuracy_fold_bounds (net : matrix → matrix)
    (batches : list (list (list R * nat))) :
  ∀ acc : R * R,
    (foldl (accuracy_step net) acc batches).2
    = acc.2 + INR (length (concat batches))
    ∧ acc.1 <= (foldl (accuracy_step net) acc batches).1
      <= acc.1 + INR (length (concat batches)).
Proof.
  induction batches as [|batch batches IH]; intros [n d]; simpl.
  - split; lra.
  - destruct (IH (accuracy_step net (n, d) batch)) as [Hd Hn].
    rewrite Hd. unfold accuracy_step in *. simpl in *.
    pose proof (hits_bounds (argmax (net (batch_data batch))) (batch_label batch)) as Hh.
    unfold batch_data, batch_label in *.
    rewrite !length_fmap in *. rewrite length_app, plus_INR. split; lra.
Qed.

(** X14: for any [net], [evaluate_accuracy] fails exactly when the pass
    holds no example at all, and every value it returns lies between 0 and
    1. *)
Theorem evaluate_accuracy_range (batches : list (list (list R * nat)))
    (net : matrix → matrix) :
  (evaluate_accuracy batches net = None ↔ concat batches = [])
  ∧ (∀ a, evaluate_accuracy batches net = Some a → 0 <= a <= 1).
Proof.
  unfold evaluate_accuracy.
  destruct (accuracy_fold_bounds net batches (0, 0)) as [Hd Hn]. simpl in Hd, Hn.
  pose proof (pos_INR (length (concat batches))) as Hpos.
  set (num := (foldl (accuracy_step net) (0, 0) batches).1) in *.
  set (den := (foldl (accuracy_step net) (0, 0) batches).2) in *.
  destruct (Req_dec_T den 0) as [Hz|Hnz].
  - split; [|done]. split; [intros _|done].
    apply length_zero_iff_nil, INR_eq. simpl. lra.
  - split.
    + split; [done|]. intros Hnil. rewrite Hnil in Hd. simpl in Hd. lra.
    + intros a [= <-]. assert (0 < den) by lra. split.
      * apply Rmult_le_pos; [lra|]. by apply Rlt_le, Rinv_0_lt_compat.
      * apply (Rmult_le_reg_r den); [done|].
        unfold Rdiv. rewrite Rmult_assoc, Rinv_l by lra. lra.
Qed.



End AccuracyMore.

(** ** [evaluate_accuracy] over a pass whose last batch is filled up *)

Module PaddedPass.
Import ND NDFacts Softmax SoftmaxFacts SoftmaxMore Model AccuracyFacts.

(** One feature and two classes: class 0 scores [- x] and class 1 scores
    [x]. *)
Definition W_sign : matrix := [[-1; 1]].
Definition b_zero : vector := [0; 0].

(** Three examples: the first two carry the label the model predicts for
    them, the third does not. *)
Definition right_1 : list R * nat := ([1], 1%nat).
Definition right_0 : list R * nat := ([-1], 0%nat).
Definition wrong_0 : list R * nat := ([1], 0%nat).
Definition three_examples : list (list R * nat) := [right_1; right_0; wrong_0].

(** The pass over these three examples in batches of two, in the order
    given.  [mx.io.NDArrayIter(data, label, batch_size)], as the notebook
    builds its iterators, fills a last batch that the data leave short with
    examples from the start of the data.  The notebook's own run shows it:
    with [batch_size = 64] the 10000 test examples come in 157 batches of 64,
    and the first accuracy it prints, 0.079319268, is 797/10048. *)
Definition padded_pass : list (list (list R * nat)) :=
  [[right_1; right_0]; [wrong_0; right_1]].

(** The same three examples with the last batch left short. *)
Definition short_pass : list (list (list R * nat)) :=
  [[right_1; right_0]; [wrong_0]].

Lemma predicts_1 : predicted_class W_sign b_zero [1] = 1%nat.
Proof.
  rewrite predicted_class_eq, argmax_softmax_row.
  unfold scores_of, W_sign, b_zero, width, column, inner. simpl.
  destruct (Rlt_dec _ _) as [_|Hn]; [reflexivity|]. destruct Hn. lra.
Qed.

Lemma predicts_0 : predicted_class W_sign b_zero [-1] = 0%nat.
Proof.
  rewrite predicted_class_eq, argmax_softmax_row.
  unfold scores_of, W_sign, b_zero, width, column, inner. simpl.
  destruct (Rlt_dec _ _) as [Hlt|_]; [lra|reflexivity].
Qed.

Lemma correct_right_1 (l : list (list R * nat)) :
  correct W_sign b_zero (right_1 :: l) = right_1 :: correct W_sign b_zero l.
Proof.
  unfold correct. rewrite filter_cons. apply decide_True. exact predicts_1.
Qed.

Lemma correct_right_0 (l : list (list R * nat)) :
  correct W_sign b_zero (right_0 :: l) = right_0 :: correct W_sign b_zero l.
Proof.
  unfold correct. rewrite filter_cons. apply decide_True. exact predicts_0.
Qed.

Lemma correct_wrong_0 (l : list (list R * nat)) :
  correct W_sign b_zero (wrong_0 :: l) = correct W_sign b_zero l.
Proof.
  unfold correct. rewrite filter_cons. apply decide_False.
  unfold wrong_0. simpl. rewrite predicts_1. discriminate.
Qed.

(** Whatever the pass holds, the result is the number of hits among the
    examples of the pass over their number, an example counting as often as
    the pass holds it. *)
Lemma evaluate_accuracy_of_pass (W : matrix) (b : vector)
    (batches : list (list (list R * nat))) :
  concat batches ≠ [] →
  evaluate_accuracy batches (net W b)
  = Some (INR (length (correct W b (concat batches)))
          / INR (length (concat batches))).
Proof.
  intros Hne. unfold evaluate_accuracy. rewrite accuracy_fold. simpl.
  assert (0 < INR (length (concat batches))).
  { apply lt_0_INR. destruct (concat batches); [done|simpl; lia]. }
  destruct (Req_dec_T _ _) as [Hz|_]; [lra|].
  f_equal. f_equal; lra.
Qed.

(** C7: [evaluate_accuracy] returns the number of hits over the number of
    examples the iterator yields, an example counting as often as it is
    yielded.  Over three examples of which the model classifies two
    correctly, in batches of two with the last batch filled up by the first
    example, it returns 3/4; the fraction of the examples of the dataset that
    are classified correctly is 2/3, which is what a pass that holds every
    example once returns. *)
Theorem evaluate_accuracy_counts_padding :
  (∀ (W : matrix) (b : vector) (batches : list (list (list R * nat))),
     concat batches ≠ [] →
     evaluate_accuracy batches (net W b)
     = Some (INR (length (correct W b (concat batches)))
             / INR (length (concat batches))))
  ∧ concat padded_pass = three_examples ++ take 1 three_examples
  ∧ correct W_sign b_zero three_examples = [right_1; right_0]
  ∧ INR (length (correct W_sign b_zero three_examples))
    / INR (length three_examples) = 2 / 3
  ∧ evaluate_accuracy padded_pass (net W_sign b_zero) = Some (3 / 4)
  ∧ evaluate_accuracy short_pass (net W_sign b_zero) = Some (2 / 3).
Proof.
  assert (Hc : correct W_sign b_zero three_examples = [right_1; right_0]).
  { unfold three_examples.
    by rewrite correct_right_1, correct_right_0, correct_wrong_0. }
  split_and!.
  - apply evaluate_accuracy_of_pass.
  - reflexivity.
  - exact Hc.
  - rewrite Hc. simpl. lra.
  - rewrite evaluate_accuracy_of_pass by discriminate.
    change (concat padded_pass) with [right_1; right_0; wrong_0; right_1].
    rewrite correct_right_1, correct_right_0, correct_wrong_0, correct_right_1.
    f_equal. simpl. lra.
  - rewrite evaluate_accuracy_of_pass by discriminate.
    change (concat short_pass) with three_examples.
    rewrite Hc. f_equal. simpl. lra.
Qed.

End PaddedPass.

(** ** More on the training loops *)

Module LoopMore.
Import ND NDFacts Optimizer Model Training TrainingFacts LossMore LinearRegression.

Section GenericLoop.
Context {L : Type}.
Variable forward_loss : heap → list (list R * L) → vector.
Variable backward : heap → list (list R * L) → heap.
Variable params : list ref.
Variable learning_rate : R.
Variable update_moving_loss : nat → nat → R → R → R.
Variable epoch_batches : nat → list (list (list R * L)).

Local Abbreviation run_batches :=
  (run_batches forward_loss backward params learning_rate update_moving_loss).
Local Abbreviation run_epoch :=
  (run_epoch forward_loss backward params learning_rate update_moving_loss
     epoch_batches).
Local Abbreviation train :=
  (train forward_loss backward params learning_rate update_moving_loss
     epoch_batches).
Local Abbreviation batch_step :=
  (batch_step forward_loss backward params learning_rate update_moving_loss).

(** Epoch and batch index of a step. *)
Definition step_key (s : Step) : nat * nat := (step_epoch s, step_index s).

Lemma run_batches_keys (batches : list (list (list R * L))) :
  ∀ (e i : nat) (st : LoopState),
    step_key <$> history (run_batches e i batches st)
    = (step_key <$> history st) ++ ((λ k, (e, k)) <$> seq i (length batches)).
Proof.
  induction batches as [|batch batches IH]; intros e i st; simpl.
  - by rewrite app_nil_r.
  - rewrite IH. simpl. rewrite fmap_app, <- app_assoc. done.
Qed.

Lemma run_epochs_keys (n : nat) :
  ∀ (a : nat) (st : LoopState),
    step_key <$> history (foldl run_epoch st (seq a n))
    = (step_key <$> history st)
      ++ concat ((λ e, (λ k, (e, k)) <$> seq 0 (length (epoch_batches e)))
                   <$> seq a n).
Proof.
  induction n as [|n IH]; intros a st; simpl.
  - by rewrite app_nil_r.
  - rewrite IH. unfold Training.run_epoch. rewrite run_batches_keys.
    by rewrite <- app_assoc.
Qed.

(** A property of the loop state that every loop body keeps holds after the
    whole run. *)
Lemma run_batches_keeps_state (P : LoopState → Prop) :
  (∀ e i st batch, P st → P (batch_step e i st batch)) →
  ∀ batches e i st, P st → P (run_batches e i batches st).
Proof.
  intros Hstep. induction batches as [|batch batches IH]; intros e i st HP; [done|].
  simpl. by apply IH, Hstep.
Qed.

Lemma train_keeps_state (P : LoopState → Prop) (epochs : nat) (st : LoopState) :
  (∀ e i st batch, P st → P (batch_step e i st batch)) →
  P st → P (train epochs st).
Proof.
  intros Hstep. unfold Training.train. generalize 0%nat. revert st.
  induction epochs as [|n IH]; intros st a HP; [done|].
  simpl. apply IH. unfold Training.run_epoch. by apply run_batches_keeps_state.
Qed.

(** The same for a property of [moving_loss] alone. *)
Lemma run_batches_keeps (P : R → Prop) :
  (∀ e i st batch, P (moving_loss st) → P (moving_loss (batch_step e i st batch))) →
  ∀ batches e i st,
    P (moving_loss st) → P (moving_loss (run_batches e i batches st)).
Proof.
  intros Hstep. induction batches as [|batch batches IH]; intros e i st HP; [done|].
  simpl. by apply IH, Hstep.
Qed.

Lemma train_keeps (P : R → Prop) (epochs : nat) (st : LoopState) :
  (∀ e i st batch, P (moving_loss st) → P (moving_loss (batch_step e i st batch))) →
  P (moving_loss st) → P (moving_loss (train epochs st)).
Proof.
  intros Hstep. unfold Training.train. generalize 0%nat. revert st.
  induction epochs as [|n IH]; intros st a HP; [done|].
  simpl. apply IH. unfold Training.run_epoch. by apply run_batches_keeps.
Qed.

Lemma chained_within (sc lo hi : R) (hs : list Step) :
  0 <= sc <= 1 →
  (∀ e i m c, ¬ (e = 0%nat ∧ i = 0%nat) →
     update_moving_loss e i m c = sc * c + (1 - sc) * m) →
  ∀ m,
    chained update_moving_loss m hs →
    Forall unseeded hs →
    Forall (λ s, lo <= step_curr_loss s <= hi) hs →
    lo <= m <= hi →
    lo <= last_moving m hs <= hi.
Proof.
  intros Hsc Hmix. induction hs as [|s hs IH]; intros m Hc Hun Hb Hm; [done|].
  destruct Hc as (_ & Ha & Hc).
  apply Forall_cons in Hun as [Hs Hun]. apply Forall_cons in Hb as [Hcs Hb].
  simpl. apply IH; [done..|]. rewrite Ha, Hmix by exact Hs. nra.
Qed.

Lemma train_within (sc lo hi : R) (epochs : nat) (h : heap) :
  0 <= sc <= 1 →
  (∀ m c, update_moving_loss 0 0 m c = c) →
  (∀ e i m c, ¬ (e = 0%nat ∧ i = 0%nat) →
     update_moving_loss e i m c = sc * c + (1 - sc) * m) →
  (0 < epochs)%nat →
  epoch_batches 0%nat ≠ [] →
  Forall (λ s, lo <= step_curr_loss s <= hi) (history (train epochs (initial h))) →
  lo <= moving_loss (train epochs (initial h)) <= hi.
Proof.
  intros Hsc Hseed Hmix Hepochs Hne. unfold Training.train.
  destruct (run_epochs_steps forward_loss backward params learning_rate
              update_moving_loss epoch_batches epochs 0%nat (initial h))
    as (steps & Hh & Hc & Hm & _ & Hun & Hhd).
  simpl in Hh, Hc, Hm. rewrite Hh, Hm. intros Hb.
  destruct (epoch_batches 0%nat) as [|b0 rest] eqn:Hb0; [done|].
  destruct (Hhd Hepochs b0 rest eq_refl) as (s & steps' & -> & He & Hi & _).
  destruct Hc as (_ & Ha & Hc). apply Forall_cons in Hb as [Hs Hb].
  simpl in *. eapply chained_within; eauto.
  rewrite Ha, He, Hi, Hseed. exact Hs.
Qed.

End GenericLoop.

(** X19: if [backward] writes gradient buffers only, as autograd does, then
    a whole run of the loop leaves the value of every array outside [params]
    as it was before the first epoch. *)
Theorem training_changes_only_param_values {L : Type}
    (forward_loss : heap → list (list R * L) → vector)
    (backward : heap → list (list R * L) → heap)
    (params : list ref) (lr : R) (update : nat → nat → R → R → R)
    (epoch_batches : nat → list (list (list R * L))) (epochs : nat) (h : heap)
    (r : ref) :
  (∀ h' batch r', value <$> backward h' batch !! r' = value <$> h' !! r') →
  r ∉ params →
  value <$> arrays (train forward_loss backward params lr update epoch_batches
                      epochs (initial h)) !! r
  = value <$> h !! r.
Proof.
  intros Hbw Hr.
  apply (train_keeps_state forward_loss backward params lr update epoch_batches
           (λ st, value <$> arrays st !! r = value <$> h !! r)); [|done].
  intros e i st batch Hst. simpl.
  by rewrite SGD_lookup_other, Hbw.
Qed.

(** X16: in a run of [epochs] epochs the loop body is executed once for
    every batch of every epoch, epoch after epoch and batch after batch, with
    [e] the epoch and [i] counting the batches of that epoch from 0. *)
Theorem train_runs_once_per_batch {L : Type}
    (forward_loss : heap → list (list R * L) → vector)
    (backward : heap → list (list R * L) → heap)
    (params : list ref) (lr : R) (update : nat → nat → R → R → R)
    (epoch_batches : nat → list (list (list R * L))) (epochs : nat) (h : heap) :
  step_key <$> history (train forward_loss backward params lr update
                          epoch_batches epochs (initial h))
  = concat ((λ e, (λ i, (e, i)) <$> seq 0 (length (epoch_batches e)))
              <$> seq 0 epochs).
Proof. unfold train. by rewrite run_epochs_keys. Qed.

Lemma updates_nonneg (e i : nat) (m c : R) :
  0 <= m → 0 <= c →
  0 <= softmax_update_moving_loss e i m c
  ∧ 0 <= linreg_update_moving_loss e i m c.
Proof.
  intros Hm Hc.
  unfold softmax_update_moving_loss, linreg_update_moving_loss, smoothing_constant.
  destruct ((i =? 0)%nat && (e =? 0)%nat); lra.
Qed.

(** X17: in both loops [moving_loss] is never negative, after any number of
    epochs, for any batches and whatever autograd writes. *)
Theorem moving_loss_never_negative :
  (∀ backward epoch_batches epochs h,
     0 <= moving_loss (softmax_training backward epoch_batches epochs h))
  ∧ (∀ backward epoch_batches epochs h,
       0 <= moving_loss (linreg_training backward epoch_batches epochs h)).
Proof.
  split; intros backward epoch_batches epochs h.
  - unfold softmax_training. apply (train_keeps _ _ _ _ _ _ (λ m, 0 <= m)); [|simpl; lra].
    intros e i st batch Hm. simpl.
    apply updates_nonneg; [done|]. unfold curr_loss_of.
    apply mean_nonneg, softmax_forward_loss_nonneg.
  - unfold linreg_training. apply (train_keeps _ _ _ _ _ _ (λ m, 0 <= m)); [|simpl; lra].
    intros e i st batch Hm. simpl.
    apply updates_nonneg; [done|]. unfold curr_loss_of, linreg_forward_loss, square_loss, mean_all.
    apply mean_nonneg. apply Forall_singleton. apply mean_nonneg, squares_nonneg.
Qed.

(** X18: in both loops, once the first epoch has a batch, the final
    [moving_loss] lies between any two bounds that hold for the mean losses
    of all the batches processed; started from the first loss, the average
    never leaves the range of the losses it averages. *)
Theorem moving_loss_within_loss_range :
  (∀ backward epoch_batches epochs h lo hi,
     (0 < epochs)%nat →
     epoch_batches 0%nat ≠ [] →
     Forall (λ s, lo <= step_curr_loss s <= hi)
       (history (softmax_training backward epoch_batches epochs h)) →
     lo <= moving_loss (softmax_training backward epoch_batches epochs h) <= hi)
  ∧ (∀ backward epoch_batches epochs h lo hi,
       (0 < epochs)%nat →
       epoch_batches 0%nat ≠ [] →
       Forall (λ s, lo <= step_curr_loss s <= hi)
         (history (linreg_training backward epoch_batches epochs h)) →
       lo <= moving_loss (linreg_training backward epoch_batches epochs h) <= hi).
Proof.
  split; intros backward epoch_batches epochs h lo hi Hepochs Hne Hb.
  - eapply (train_within _ _ _ _ _ _ smoothing_constant); eauto
      using softmax_update_seed, softmax_update_mix.
    unfold smoothing_constant. lra.
  - eapply (train_within _ _ _ _ _ _ (1 / 100)); eauto
      using linreg_update_seed, linreg_update_mix.
    lra.
Qed.

(** Two weights that predict 3 where the label is 5, gradients at zero, an
    autograd that writes nothing, and the same single batch in every epoch. *)
Definition fitted : heap :=
  {[ 0%nat := {| value := [[1]; [1]]; grad := [[0]; [0]] |};
     1%nat := {| value := [[0]]; grad := [[0]] |} ]}.
Definition one_point : list (list R * R) := [([1; 2], 5)].
Definition keep_gradients (h : heap) (batch : list (list R * R)) : heap := h.
Definition one_point_each_epoch (e : nat) : list (list (list R * R)) := [one_point].

Lemma losses_are_4 :
  Forall (λ s, 4 <= step_curr_loss s <= 4)
    (history (linreg_training keep_gradients one_point_each_epoch 2 fitted)).
Proof.
  assert (Hw : fitted !! w = Some {| value := [[1]; [1]]; grad := [[0]; [0]] |})
    by reflexivity.
  assert (Hb : fitted !! b = Some {| value := [[0]]; grad := [[0]] |})
    by reflexivity.
  assert (Hw' : alter (sgd_update learning_rate) b
                  (alter (sgd_update learning_rate) w fitted) !! w
                = Some {| value := [[1 - learning_rate * 0]; [1 - learning_rate * 0]];
                          grad := [[0]; [0]] |}) by reflexivity.
  assert (Hb' : alter (sgd_update learning_rate) b
                  (alter (sgd_update learning_rate) w fitted) !! b
                = Some {| value := [[0 - learning_rate * 0]];
                          grad := [[0]] |}) by reflexivity.
  unfold linreg_training, train, initial. simpl.
  repeat (apply Forall_cons; split; [|]); [..|apply Forall_nil_2]; simpl;
    unfold curr_loss_of, linreg_forward_loss, value_of, as_vector, square_loss,
      keep_gradients;
    rewrite ?Hw, ?Hb, ?Hw', ?Hb'; unfold mean_all, mean, inner, learning_rate;
    simpl; unfold inner; simpl; lra.
Qed.

Lemma moving_loss_within_loss_range_witness :
  (0 < 2)%nat
  ∧ one_point_each_epoch 0 ≠ []
  ∧ Forall (λ s, 4 <= step_curr_loss s <= 4)
      (history (linreg_training keep_gradients one_point_each_epoch 2 fitted))
  ∧ 4 <= moving_loss (linreg_training keep_gradients one_point_each_epoch 2 fitted)
    <= 4.
Proof.
  assert (H1 : (0 < 2)%nat) by lia.
  assert (H2 : one_point_each_epoch 0 ≠ []) by discriminate.
  split_and!; [exact H1|exact H2|exact losses_are_4|..];
    apply (proj2 moving_loss_within_loss_range keep_gradients one_point_each_epoch
             2%nat fitted 4 4 H1 H2 losses_are_4).
Defined.

Lemma training_changes_only_param_values_witness :
  (∀ h' batch r', value <$> keep_gradients h' batch !! r' = value <$> h' !! r')
  ∧ (5%nat ∉ [w; b])
  ∧ value <$> arrays (train linreg_forward_loss keep_gradients [w; b] learning_rate
                        linreg_update_moving_loss one_point_each_epoch 2
                        (initial fitted)) !! 5%nat
    = value <$> fitted !! 5%nat.
Proof.
  assert (H1 : ∀ h' batch r',
            value <$> keep_gradients h' batch !! r' = value <$> h' !! r')
    by reflexivity.
  assert (H2 : 5%nat ∉ [w; b]).
  { intros Hin. apply elem_of_cons in Hin as [Hin|Hin]; [discriminate|].
    apply elem_of_cons in Hin as [Hin|Hin]; [discriminate|].
    by apply elem_of_nil in Hin. }
  split_and!; [exact H1|exact H2|].
  exact (training_changes_only_param_values linreg_forward_loss keep_gradients
           [w; b] learning_rate linreg_update_moving_loss one_point_each_epoch
           2%nat fitted 5%nat H1 H2).
Defined.

End LoopMore.
